(** * Portfolio dashboard: session bookkeeping and the portfolio data service

    A shallow embedding of the client-side glue of the dashboard:
    - [SessionManager] (last-location persistence in browser-local storage),
    - [PortfolioService] (remote table queries, the quarter aggregation, the
      bounded retry of [getPortfolioByQuarter], the real-time channel and its
      subscriber set),
    - the subscription effect of the [usePortfolioData] hook.

    Conventions of the embedding.
    - An asynchronous operation is a function of the replies its awaited
      backend calls resolve to; a reply is the SDK's [{ data, error }] pair.
    - [throw] is the [Throw] constructor of [Result]; a [try { .. } catch (e)
      { console.error(..); throw e }] wrapper is [catch_log_rethrow].
    - Console output is not part of the state.
    - Time ([Date.now()], [setTimeout] delays) is in milliseconds, in [Z]. *)

From Stdlib Require Import ZArith QArith Ascii.
From Equations Require Import Equations.
From stdpp Require Import base gmap strings list.

Local Open Scope string_scope.
Local Open Scope list_scope.
Local Open Scope Z_scope.

(** ** JavaScript primitives used by the sources *)

Module Js.

(** [s.startsWith(p)] *)
Definition startsWith (s p : string) : bool := String.prefix p s.

(** [s.includes(sub)]: [sub] occurs in [s] at some offset (case-sensitive). *)
Fixpoint includes (s sub : string) : bool :=
  if String.prefix sub s then true
  else match s with
       | EmptyString => false
       | String _ rest => includes rest sub
       end.

(** [xs.includes(x)] on an array of strings *)
Definition array_includes (xs : list string) (x : string) : bool :=
  bool_decide (x ∈ xs).

(** What an operation hands to its caller: a value, or a thrown error. *)
Inductive Result (E A : Type) : Type :=
| Ok (a : A)
| Throw (e : E).
Arguments Ok {E A} a.
Arguments Throw {E A} e.

(** [try { body } catch (error) { console.error(..); throw error; }] *)
Definition catch_log_rethrow {E A} (body : Result E A) : Result E A :=
  match body with
  | Ok a => Ok a
  | Throw e => Throw e
  end.

(** A JavaScript [Set] keeps its members in insertion order and holds each
    at most once; [forEach] visits them in that order. *)
Section InsertionOrderedSet.
Context {A : Type} `{EqDecision A}.

Definition set_add (x : A) (s : list A) : list A :=
  if bool_decide (x ∈ s) then s else s ++ [x].

Definition set_delete (x : A) (s : list A) : list A :=
  filter (λ y, y ≠ x) s.

Definition set_size (s : list A) : nat := length s.

End InsertionOrderedSet.

(** A JavaScript [Map] with string keys: entries stay in the order in which
    their keys were first set; [set] on a present key replaces the value in
    place. *)
Section InsertionOrderedMap.
Context {V : Type}.

Fixpoint map_get (k : string) (m : list (string * V)) : option V :=
  match m with
  | [] => None
  | (k', v) :: rest => if bool_decide (k' = k) then Some v else map_get k rest
  end.

Fixpoint map_set (k : string) (v : V) (m : list (string * V))
    : list (string * V) :=
  match m with
  | [] => [(k, v)]
  | (k', v') :: rest =>
      if bool_decide (k' = k) then (k, v) :: rest
      else (k', v') :: map_set k v rest
  end.

Definition map_entries (m : list (string * V)) : list (string * V) := m.

End InsertionOrderedMap.

End Js.

(** ** [SessionManager] (session management utilities) *)

Module SessionManager.

(** [interface SessionState]; [userId] is optional and never written by
    the location operations. *)
Record SessionState : Type := mkSessionState {
  lastLocation : option string;
  timestamp : Z;
  userId : option string
}.

(** A cell of [localStorage].  [JSON.parse (JSON.stringify s)] gives [s]
    back for a [SessionState], so a cell written by [storeLocation] is kept
    in parsed form; [RawText] is any other text.  The operations below are
    exact on a cell that is absent, empty or written by [storeLocation]; of
    other text they take [JSON.parse] to throw, which it does not on JSON
    text of another shape (the code then goes by whatever fields the parsed
    value has). *)
Inductive StoredText : Type :=
| SessionJson (s : SessionState)
| RawText (raw : string).

(** The browser around one call. *)
Record Browser : Type := mkBrowser {
  has_window : bool;       (* [typeof window !== 'undefined'] *)
  now : Z;                 (* [Date.now()] *)
  setItem_throws : bool    (* [localStorage.setItem] raises (quota) *)
}.

Definition STORAGE_KEY : string := "passiveWealth_session".
Definition LOCATION_KEY : string := "passiveWealth_lastLocation".
Definition SESSION_TIMEOUT : Z := 24 * 60 * 60 * 1000.

(** [!stored] for the [string | null] that [localStorage.getItem] returns *)
Definition falsy (stored : option StoredText) : bool :=
  match stored with
  | None => true
  | Some (RawText "") => true
  | Some _ => false
  end.

(** [JSON.parse(stored)] at type [SessionState]; [None]: it throws (see
    [StoredText] for text no [storeLocation] has written). *)
Definition JSON_parse (stored : StoredText) : option SessionState :=
  match stored with
  | SessionJson s => Some s
  | RawText _ => None
  end.

Definition storeLocation (b : Browser) (path : string)
    (localStorage : gmap string StoredText) : gmap string StoredText :=
  if negb (has_window b) then localStorage
  else if bool_decide (path = "/auth/callback") || bool_decide (path = "/")
  then localStorage
  else
    let sessionState :=
      {| lastLocation := Some path; timestamp := now b; userId := None |} in
    if setItem_throws b then localStorage   (* caught and logged *)
    else <[LOCATION_KEY := SessionJson sessionState]> localStorage.

Definition clearStoredLocation (b : Browser)
    (localStorage : gmap string StoredText) : gmap string StoredText :=
  if negb (has_window b) then localStorage
  else delete LOCATION_KEY localStorage.

Definition getStoredLocation (b : Browser)
    (localStorage : gmap string StoredText)
    : option string * gmap string StoredText :=
  if negb (has_window b) then (None, localStorage)
  else
    let stored := localStorage !! LOCATION_KEY in
    if falsy stored then (None, localStorage)
    else match stored ≫= JSON_parse with
         | None => (None, localStorage)   (* parse error caught and logged *)
         | Some sessionState =>
             if bool_decide (now b - timestamp sessionState > SESSION_TIMEOUT)
             then (None, clearStoredLocation b localStorage)
             else (lastLocation sessionState, localStorage)
         end.

Definition excludedPaths : list string :=
  ["/auth/callback"; "/"; "/login"; "/signup"].

Definition shouldStorePath (path : string) : bool :=
  negb (Js.array_includes excludedPaths path)
  && negb (Js.startsWith path "/auth/").

Definition getDefaultRedirectPath : string := "/momentum".

(** [storedLocation || default]: the empty string is falsy too. *)
Definition getRedirectPath (b : Browser)
    (localStorage : gmap string StoredText)
    : string * gmap string StoredText :=
  let '(storedLocation, localStorage') := getStoredLocation b localStorage in
  match storedLocation with
  | Some p => if bool_decide (p = "") then (getDefaultRedirectPath, localStorage')
              else (p, localStorage')
  | None => (getDefaultRedirectPath, localStorage')
  end.

End SessionManager.


(** ** [PortfolioService] (data-access object over the remote table) *)

Module PortfolioService.
Import Js.

(** The SDK's error object; only [message] is ever inspected. *)
Record PostgrestError : Type := mkError {
  message : string;
  code : string
}.

(** What an awaited query builder resolves to: [{ data, error }]. *)
Record Reply (A : Type) : Type := mkReply {
  data : option A;
  error : option PostgrestError
}.
Arguments mkReply {A} data error.
Arguments data {A} r.
Arguments error {A} r.

Definition Outcome (A : Type) : Type := Result PostgrestError A.

(** [interface PortfolioConstituent].  The service never computes with a
    full row; its numeric columns are kept as rationals. *)
Record PortfolioConstituent : Type := mkConstituent {
  id : Z;
  pc_quarter : string;
  stock_name : string;
  stock_code : string;
  company_logo_url : option string;
  pc_weight : Q;
  pc_quarterly_returns : Q;
  created_at : string;
  updated_at : string
}.

(** The arithmetic of JavaScript [number] that the aggregation uses.  No law
    is assumed of it, so what is proved of the aggregation holds for IEEE
    doubles as for exact rationals.  [num_of_count] reads a row count as a
    number. *)
Class JsNumber (number : Type) : Type := {
  num_zero : number;
  num_add : number → number → number;
  num_div : number → number → number;
  num_of_count : nat → number
}.

(** Exact rationals, the numbers the worked examples are computed with.
    JavaScript's own [number] is an IEEE double, whose addition is not
    associative: a law of rational arithmetic says nothing of the code, and
    none is used of this instance but that a count of at least one row is
    not zero. *)
#[export] Instance Q_JsNumber : JsNumber Q := {|
  num_zero := 0%Q;
  num_add := Qplus;
  num_div := Qdiv;
  num_of_count := λ n, inject_Z (Z.of_nat n)
|}.

Section Aggregation.
Context {number : Type} `{JsNumber number}.

(** A row of [.select('quarter, weight, quarterly_returns')]. *)
Record SummaryRow : Type := mkRow {
  quarter : string;
  weight : number;
  quarterly_returns : number
}.

(** [interface QuarterSummary] *)
Record QuarterSummary : Type := mkSummary {
  qs_quarter : string;
  total_stocks : nat;
  avg_returns : number;
  total_weight : number
}.

(** The value type of [quarterMap]. *)
Record Totals : Type := mkTotals {
  t_total_stocks : nat;
  t_total_returns : number;
  t_total_weight : number
}.

(** The body of [data.forEach(item => ..)]. *)
Definition accumulate (quarterMap : list (string * Totals)) (item : SummaryRow)
    : list (string * Totals) :=
  let existing :=
    match map_get (quarter item) quarterMap with
    | Some t => t
    | None => {| t_total_stocks := 0;
                 t_total_returns := num_zero;
                 t_total_weight := num_zero |}
    end in
  map_set (quarter item)
    {| t_total_stocks := t_total_stocks existing + 1;
       t_total_returns :=
         num_add (t_total_returns existing) (quarterly_returns item);
       t_total_weight := num_add (t_total_weight existing) (weight item) |}
    quarterMap.

(** [quarterMap] once [forEach] has run over [data]. *)
Definition group_by_quarter (rows : list SummaryRow) : list (string * Totals) :=
  foldl accumulate [] rows.

(** The arrow function mapped over [Array.from(quarterMap.entries())]. *)
Definition to_summary (entry : string * Totals) : QuarterSummary :=
  let '(quarter, summary) := entry in
  {| qs_quarter := quarter;
     total_stocks := t_total_stocks summary;
     avg_returns :=
       num_div (t_total_returns summary)
               (num_of_count (t_total_stocks summary));
     total_weight := t_total_weight summary |}.

Definition getQuartersSummary (reply : Reply (list SummaryRow))
    : Outcome (list QuarterSummary) :=
  catch_log_rethrow
    match error reply with
    | Some e => Throw e
    | None =>
        match data reply with
        | None => Ok []
        | Some [] => Ok []
        | Some rows => Ok (to_summary <$> map_entries (group_by_quarter rows))
        end
    end.

End Aggregation.
Arguments SummaryRow number : clear implicits.
Arguments QuarterSummary number : clear implicits.
Arguments Totals number : clear implicits.

(** Subscriber functions are told apart by identity only; a [Callback] names
    one. *)
Definition Callback : Type := nat.

(** The channel object; the change handler it carries closes over the
    [quarter] argument of the [subscribeToUpdates] call that created it. *)
Record RealtimeChannel : Type := mkChannel {
  channel_id : nat;
  handler_quarter : option string
}.

(** The singleton's fields together with what its calls leave behind in the
    environment. *)
Record World : Type := mkWorld {
  realtimeChannel : option RealtimeChannel;
  subscribers : list Callback;
  connectionRetries : nat;
  fetches : nat;            (* quarter queries answered so far *)
  slept : list Z;           (* [setTimeout] delays awaited so far, oldest first *)
  open_channels : list nat; (* channels subscribed and not yet unsubscribed *)
  channels_created : nat
}.

Definition maxRetries : nat := 3.
Definition retryDelay : Z := 1000.

(** [new PortfolioService()] in a fresh environment *)
Definition initial : World :=
  {| realtimeChannel := None; subscribers := []; connectionRetries := 0;
     fetches := 0; slept := []; open_channels := []; channels_created := 0 |}.

(** The gate's test on the error message. *)
Definition looks_like_connection_issue (e : PostgrestError) : bool :=
  includes (message e) "connection" || includes (message e) "network".

Definition answered (w : World) : World :=
  mkWorld (realtimeChannel w) (subscribers w) (connectionRetries w)
          (S (fetches w)) (slept w) (open_channels w) (channels_created w).

(** [this.connectionRetries++] followed by the awaited [setTimeout]. *)
Definition back_off (w : World) : World :=
  let retries := S (connectionRetries w) in
  mkWorld (realtimeChannel w) (subscribers w) retries
          (fetches w) (slept w ++ [retryDelay * Z.of_nat retries])
          (open_channels w) (channels_created w).

Definition reset_retries (w : World) : World :=
  mkWorld (realtimeChannel w) (subscribers w) 0
          (fetches w) (slept w) (open_channels w) (channels_created w).

(** [select q n] is the backend's reply to the [n]-th quarter query, asked
    for quarter [q].  This is the run of one call from its start to its end
    with nothing in between: no other call of the singleton is in flight
    while it runs, and its session lookups resolve (their result is only
    logged).  [EventLoop] below has the suspensions at each [await], calls
    that overlap and a session lookup that rejects.  The recursive call sits
    inside the [try], so what it throws passes through the [catch] once
    more. *)
Equations? getPortfolioByQuarter
    (select : string → nat → Reply (list PortfolioConstituent))
    (quarter : string) (w : World)
    : Outcome (list PortfolioConstituent) * World
    by wf (maxRetries - connectionRetries w)%nat lt :=
getPortfolioByQuarter select quarter w
  with select quarter (fetches w) := {
  | mkReply data (Some error)
      with decide (connectionRetries w < maxRetries)%nat := {
      | left _ with looks_like_connection_issue error := {
          | true =>
              let '(r, w') :=
                getPortfolioByQuarter select quarter (back_off (answered w)) in
              (catch_log_rethrow r, w')
          | false => (catch_log_rethrow (Throw error), answered w) }
      | right _ => (catch_log_rethrow (Throw error), answered w) }
  | mkReply data None =>
      (catch_log_rethrow (Ok (default [] data)), reset_retries (answered w)) }.
Proof. unfold maxRetries in *. simpl. lia. Qed.

(** [latest] is the reply to the latest-quarter query
    ([.select('quarter').order('created_at', desc).limit(1)]): its rows are
    given by their [quarter] column. *)
Definition getLatestPortfolio (latest : Reply (list string))
    (select : string → nat → Reply (list PortfolioConstituent)) (w : World)
    : Outcome (list PortfolioConstituent) * World :=
  match error latest with
  | Some quarterError => (catch_log_rethrow (Throw quarterError), w)
  | None =>
      match data latest with
      | None => (catch_log_rethrow (Ok []), w)
      | Some [] => (catch_log_rethrow (Ok []), w)
      | Some (latestQuarter0 :: _) =>
          let '(r, w') := getPortfolioByQuarter select latestQuarter0 w in
          (catch_log_rethrow r, w')
      end
  end.

(** [Omit<PortfolioConstituent, 'id' | 'created_at' | 'updated_at'>] *)
Record NewConstituent : Type := mkNew {
  new_quarter : string;
  new_stock_name : string;
  new_stock_code : string;
  new_company_logo_url : option string;
  new_weight : Q;
  new_quarterly_returns : Q
}.

(** [Partial<PortfolioConstituent>]: the columns to overwrite, by name, with
    their new values as sent on the wire. *)
Definition Updates : Type := list (string * string).

Definition addConstituent (insert : list NewConstituent → Reply PortfolioConstituent)
    (constituent : NewConstituent) : Outcome (option PortfolioConstituent) :=
  let reply := insert [constituent] in
  catch_log_rethrow
    match error reply with
    | Some e => Throw e
    | None => Ok (data reply)
    end.

Definition updateConstituent (update : Z → Updates → Reply PortfolioConstituent)
    (id : Z) (updates : Updates) : Outcome (option PortfolioConstituent) :=
  let reply := update id updates in
  catch_log_rethrow
    match error reply with
    | Some e => Throw e
    | None => Ok (data reply)
    end.

Definition deleteConstituent (delete : Z → Reply unit) (id : Z) : Outcome unit :=
  let reply := delete id in
  catch_log_rethrow
    match error reply with
    | Some e => Throw e
    | None => Ok tt
    end.

Definition bulkInsertConstituents
    (insert : list NewConstituent → Reply (list PortfolioConstituent))
    (constituents : list NewConstituent) : Outcome (list PortfolioConstituent) :=
  let reply := insert constituents in
  catch_log_rethrow
    match error reply with
    | Some e => Throw e
    | None => Ok (default [] (data reply))
    end.

(** [if (quarter)] for an optional string argument *)
Definition given (quarter : option string) : option string :=
  match quarter with
  | Some q => if bool_decide (q = "") then None else Some q
  | None => None
  end.

(** The template literal passed to [.or(..)]. *)
Definition or_filter (searchTerm : string) : string :=
  "stock_code.ilike.%" +:+ searchTerm +:+ "%,stock_name.ilike.%"
    +:+ searchTerm +:+ "%".

(** [search filter q]: the reply to the query with the [.or(filter)] clause
    and, when [q] is [Some], the [.eq('quarter', q)] clause. *)
Definition searchConstituents
    (search : string → option string → Reply (list PortfolioConstituent))
    (searchTerm : string) (quarter : option string)
    : Outcome (list PortfolioConstituent) :=
  let reply := search (or_filter searchTerm) (given quarter) in
  catch_log_rethrow
    match error reply with
    | Some e => Throw e
    | None => Ok (default [] (data reply))
    end.

(** [channel.unsubscribe()] as seen from the backend *)
Definition close_channel (ch : RealtimeChannel) (open : list nat) : list nat :=
  filter (λ i, i ≠ channel_id ch) open.

Definition subscribeToUpdates (callback : Callback) (quarter : option string)
    (w : World) : World :=
  let subscribers' := set_add callback (subscribers w) in
  match realtimeChannel w with
  | None =>
      let ch := {| channel_id := channels_created w;
                   handler_quarter := quarter |} in
      mkWorld (Some ch) subscribers' (connectionRetries w) (fetches w) (slept w)
              (open_channels w ++ [channel_id ch]) (S (channels_created w))
  | Some ch =>
      mkWorld (Some ch) subscribers' (connectionRetries w) (fetches w) (slept w)
              (open_channels w) (channels_created w)
  end.

(** The function that [subscribeToUpdates callback _] returns. *)
Definition unsubscribe (callback : Callback) (w : World) : World :=
  let subscribers' := set_delete callback (subscribers w) in
  match realtimeChannel w with
  | Some ch =>
      if bool_decide (set_size subscribers' = 0%nat)
      then mkWorld None subscribers' (connectionRetries w) (fetches w) (slept w)
                   (close_channel ch (open_channels w)) (channels_created w)
      else mkWorld (Some ch) subscribers' (connectionRetries w) (fetches w)
                   (slept w) (open_channels w) (channels_created w)
  | None =>
      mkWorld None subscribers' (connectionRetries w) (fetches w) (slept w)
              (open_channels w) (channels_created w)
  end.

(** The timer armed on a [CHANNEL_ERROR] status, when it fires:
    [this.realtimeChannel?.unsubscribe(); this.realtimeChannel = null]. *)
Definition reconnect_timer_fires (w : World) : World :=
  mkWorld None (subscribers w) (connectionRetries w) (fetches w) (slept w)
          (match realtimeChannel w with
           | Some ch => close_channel ch (open_channels w)
           | None => open_channels w
           end)
          (channels_created w).

(** The handler registered with [.on('postgres_changes', ..)].  [call cb data]
    is what running subscriber [cb] on [data] does to the subscribers' own
    state; an exception inside a subscriber is caught per subscriber. *)
Definition on_postgres_changes {Views : Type}
    (call : Callback → list PortfolioConstituent → Views → Views)
    (quarter : option string)
    (latest : Reply (list string))
    (select : string → nat → Reply (list PortfolioConstituent))
    (w : World) (views : Views) : World * Views :=
  let '(fetched, w') :=
    match given quarter with
    | Some q => getPortfolioByQuarter select q w
    | None => getLatestPortfolio latest select w
    end in
  match fetched with
  | Ok updatedData =>
      (w', foldl (λ views subscriber, call subscriber updatedData views)
                 views (subscribers w'))
  | Throw _ => (w', views)   (* 'Error fetching updated data' is logged *)
  end.

(** A change notification arriving on the current channel, if there is one. *)
Definition notify {Views : Type}
    (call : Callback → list PortfolioConstituent → Views → Views)
    (latest : Reply (list string))
    (select : string → nat → Reply (list PortfolioConstituent))
    (w : World) (views : Views) : World * Views :=
  match realtimeChannel w with
  | Some ch => on_postgres_changes call (handler_quarter ch) latest select w views
  | None => (w, views)
  end.

(** What can happen to the singleton between two states.  A change
    notification moves it as the fetch that its handler performs. *)
Inductive step : World → World → Prop :=
| step_subscribe callback quarter w :
    step w (subscribeToUpdates callback quarter w)
| step_unsubscribe callback w :
    step w (unsubscribe callback w)
| step_reconnect w :
    step w (reconnect_timer_fires w)
| step_fetch select quarter w :
    step w (getPortfolioByQuarter select quarter w).2
| step_latest latest select w :
    step w (getLatestPortfolio latest select w).2.

Inductive reachable : World → Prop :=
| reachable_initial : reachable initial
| reachable_step w w' : reachable w → step w w' → reachable w'.

(** The variant of the service in [src/lib/portfolioService.ts]: no retry, no
    shortcut on empty data; its subscription code is the one above without
    the reconnect timer. *)
Module NoRetry.

Definition getPortfolioByQuarter
    (select : string → nat → Reply (list PortfolioConstituent))
    (quarter : string) (w : World)
    : Outcome (list PortfolioConstituent) * World :=
  let reply := select quarter (fetches w) in
  (catch_log_rethrow
     match error reply with
     | Some e => Throw e
     | None => Ok (default [] (data reply))
     end,
   answered w).

Definition getLatestPortfolio (latest : Reply (list string))
    (select : string → nat → Reply (list PortfolioConstituent)) (w : World)
    : Outcome (list PortfolioConstituent) * World :=
  match error latest with
  | Some quarterError => (catch_log_rethrow (Throw quarterError), w)
  | None =>
      match data latest with
      | None => (catch_log_rethrow (Ok []), w)
      | Some [] => (catch_log_rethrow (Ok []), w)
      | Some (latestQuarter0 :: _) =>
          let '(r, w') := getPortfolioByQuarter select latestQuarter0 w in
          (catch_log_rethrow r, w')
      end
  end.

Definition getQuartersSummary {number : Type} `{JsNumber number}
    (reply : Reply (list (SummaryRow number)))
    : Outcome (list (QuarterSummary number)) :=
  catch_log_rethrow
    match error reply with
    | Some e => Throw e
    | None =>
        Ok (to_summary
              <$> map_entries (foldl accumulate [] (default [] (data reply))))
    end.

End NoRetry.

End PortfolioService.

(** ** The [usePortfolioData] hook: what a subscriber does with an update *)

Module UsePortfolioData.
Import Js PortfolioService.

(** The [useState] cells of one mounted hook. *)
Record HookState : Type := mkHook {
  portfolioData : list PortfolioConstituent;
  quarters : list (QuarterSummary Q);
  loading : bool;
  error_message : option string;
  selectedQuarter : option string;
  isDataStale : bool;
  lastFetchTime : Z
}.

(** The arrow function handed to [subscribeToUpdates]:
    [setPortfolioData(updatedData); setError(null); setIsDataStale(false);
     setLastFetchTime(Date.now())]. *)
Definition on_update (now : Z) (updatedData : list PortfolioConstituent)
    (s : HookState) : HookState :=
  {| portfolioData := updatedData;
     quarters := quarters s;
     loading := loading s;
     error_message := None;
     selectedQuarter := selectedQuarter s;
     isDataStale := false;
     lastFetchTime := now |}.

(** Mounted hooks, each found under the callback it subscribed. *)
Definition call (now : Z) (subscriber : Callback)
    (updatedData : list PortfolioConstituent)
    (hooks : gmap Callback HookState) : gmap Callback HookState :=
  alter (on_update now updatedData) subscriber hooks.

(** The subscription effect: skipped without a selected quarter or a user. *)
Definition subscription_effect (user : bool) (callback : Callback)
    (s : HookState) (w : World) : World :=
  match given (selectedQuarter s) with
  | Some q => if user then subscribeToUpdates callback (Some q) w else w
  | None => w
  end.

End UsePortfolioData.

(** ** Vocabulary of the statements *)

Module Vocabulary.
Import Js PortfolioService.

(** The backend answers every query from now on with an error that passes
    the gate's message test. *)
Definition keeps_failing
    (select : string → nat → Reply (list PortfolioConstituent))
    (quarter : string) (w : World) : Prop :=
  ∀ n, (fetches w ≤ n)%nat →
    ∃ e, error (select quarter n) = Some e ∧
         looks_like_connection_issue e = true.

(** The delays of [n] successive retries when the counter stands at [c]. *)
Definition backoff_delays (c n : nat) : list Z :=
  map (λ k, retryDelay * Z.of_nat (c + k)) (seq 1 n).

(** Linear backoff counted from this call's first retry: retry [k] waits
    [k * retryDelay]. *)
Definition linear_from_one (delays : list Z) : Prop :=
  ∀ k d, delays !! k = Some d → d = Z.of_nat (S k) * retryDelay.

Section Grouping.
Context {number : Type} `{JsNumber number}.
Implicit Types (rows : list (SummaryRow number)) (q : string).

(** The input rows carrying quarter label [q], in input order. *)
Definition rows_of q rows : list (SummaryRow number) :=
  filter (λ r, quarter r = q) rows.

(** The sum of a list of numbers, added up from zero in list order. *)
Definition sum (xs : list number) : number := foldl num_add num_zero xs.

(** What the claim says the totals of quarter [q] are. *)
Definition totals_of q rows : Totals number :=
  {| t_total_stocks := length (rows_of q rows);
     t_total_returns := sum (quarterly_returns <$> rows_of q rows);
     t_total_weight := sum (weight <$> rows_of q rows) |}.

End Grouping.

(** The channels the backend holds open are exactly the one the singleton
    points to, if any; a channel is held only while somebody is subscribed;
    the subscriber set has no repetition. *)
Definition channel_invariant (w : World) : Prop :=
  open_channels w =
    match realtimeChannel w with
    | Some ch => [channel_id ch]
    | None => []
    end ∧
  (realtimeChannel w ≠ None → subscribers w ≠ []) ∧
  NoDup (subscribers w).

(** The refetch the handler of channel [ch] performs. *)
Definition refetch (ch : RealtimeChannel) (latest : Reply (list string))
    (select : string → nat → Reply (list PortfolioConstituent)) (w : World)
    : Outcome (list PortfolioConstituent) * World :=
  match given (handler_quarter ch) with
  | Some q => getPortfolioByQuarter select q w
  | None => getLatestPortfolio latest select w
  end.

End Vocabulary.

(** ** Sample inputs *)

Module Samples.
Import Js SessionManager PortfolioService UsePortfolioData.

(** A browser tab at time [t] whose storage accepts writes. *)
Definition tab (t : Z) : Browser :=
  {| has_window := true; now := t; setItem_throws := false |}.

Definition network_error : PostgrestError :=
  {| message := "network request failed"; code := "" |}.
Definition permission_error : PostgrestError :=
  {| message := "permission denied for table"; code := "42501" |}.

(** Every query fails with the network error. *)
Definition down (_ : string) (_ : nat) : Reply (list PortfolioConstituent) :=
  mkReply None (Some network_error).

(** The first query fails with the network error, the following ones with
    the permission error. *)
Definition flaky (_ : string) (n : nat) : Reply (list PortfolioConstituent) :=
  match n with
  | O => mkReply None (Some network_error)
  | _ => mkReply None (Some permission_error)
  end.

(** Every query succeeds with an empty quarter. *)
Definition emptied (_ : string) (_ : nat) : Reply (list PortfolioConstituent) :=
  mkReply (Some []) None.

(** Every query is refused. *)
Definition refused (_ : string) (_ : nat) : Reply (list PortfolioConstituent) :=
  mkReply None (Some permission_error).

Definition empty_table : Reply (list string) := mkReply (Some []) None.

Definition refuses_insert (_ : list NewConstituent) : Reply PortfolioConstituent :=
  mkReply None (Some permission_error).

Definition sample_constituent : NewConstituent :=
  {| new_quarter := "Q1 2024"; new_stock_name := "Acme Industries";
     new_stock_code := "ACME"; new_company_logo_url := None;
     new_weight := 5 # 2; new_quarterly_returns := 7 # 4 |}.

(** A worked input: two quarters, interleaved. *)
Definition sample_rows : list (SummaryRow Q) :=
  [ mkRow "Q2 2024" (1 # 2) 4; mkRow "Q1 2024" (1 # 4) 3;
    mkRow "Q2 2024" (1 # 4) 8 ]%Q.

(** A state with two subscribers on one channel. *)
Definition two_subscribers : World :=
  subscribeToUpdates 2%nat (Some "Q2 2024")
    (subscribeToUpdates 1%nat (Some "Q1 2024") initial).

(** One mounted hook showing a stale row, subscribed for "Q1 2024". *)
Definition stale_row : PortfolioConstituent :=
  mkConstituent 7 "Q1 2024" "Acme Industries" "ACME" None (5 # 2) (7 # 4)
                "2024-01-02" "2024-01-02".

Definition stale_hook : HookState :=
  {| portfolioData := [stale_row]; quarters := []; loading := false;
     error_message := None; selectedQuarter := Some "Q1 2024";
     isDataStale := false; lastFetchTime := 1000 |}.

Definition one_subscriber : World :=
  subscription_effect true 1%nat stale_hook initial.

End Samples.

(** ** [getHistoricalPerformance] and its period labels *)

Module Performance.
Import Js PortfolioService.

(** [s.split(' ')]: the pieces between single spaces; never empty. *)
Fixpoint split_space (s : string) : list string :=
  match s with
  | EmptyString => [EmptyString]
  | String c rest =>
      if bool_decide (c = " "%char) then EmptyString :: split_space rest
      else match split_space rest with
           | piece :: pieces => String c piece :: pieces
           | [] => [String c EmptyString]
           end
  end.

(** What [quarterMap[q]] evaluates to on the object literal of
    [quarterToPeriod]: one of its four own values, [undefined], or a member
    inherited from [Object.prototype]. *)
Inductive Member : Type :=
| Own (months : string)
| Inherited
| Undefined.

Definition Object_prototype_names : list string :=
  ["constructor"; "__proto__"; "hasOwnProperty"; "isPrototypeOf";
   "propertyIsEnumerable"; "toLocaleString"; "toString"; "valueOf";
   "__defineGetter__"; "__defineSetter__"; "__lookupGetter__";
   "__lookupSetter__"].

Definition quarterMap_get (q : string) : Member :=
  if bool_decide (q = "Q1") then Own "Jan - Mar"
  else if bool_decide (q = "Q2") then Own "Apr - Jun"
  else if bool_decide (q = "Q3") then Own "Jul - Sep"
  else if bool_decide (q = "Q4") then Own "Oct - Dec"
  else if bool_decide (q ∈ Object_prototype_names) then Inherited
  else Undefined.

(** [`${v}`] for a string or [undefined] *)
Definition interpolate (v : option string) : string := default "undefined" v.

(** The arrow function [quarterToPeriod].  [None] stands for the one case
    whose text is left to the engine: [q] names a member inherited from
    [Object.prototype], and the template prints that member. *)
Definition quarterToPeriod (quarter : string) : option string :=
  let pieces := split_space quarter in
  let q := default "" (pieces !! 0%nat) in
  let year := pieces !! 1%nat in
  match quarterMap_get q with
  | Own months => Some (months +:+ " " +:+ interpolate year)
  | Undefined => Some (interpolate None +:+ " " +:+ interpolate year)
  | Inherited => None
  end.

Section WithNumbers.
Context {number : Type} `{JsNumber number}.

(** An element of the array [getHistoricalPerformance] resolves to. *)
Record PerformancePoint : Type := mkPoint {
  hp_quarter : string;
  hp_avg_returns : number;
  hp_total_stocks : nat;
  period : option string
}.

Definition to_point (summary : QuarterSummary number) : PerformancePoint :=
  {| hp_quarter := qs_quarter summary;
     hp_avg_returns := avg_returns summary;
     hp_total_stocks := total_stocks summary;
     period := quarterToPeriod (qs_quarter summary) |}.

Definition getHistoricalPerformance (reply : Reply (list (SummaryRow number)))
    : Outcome (list PerformancePoint) :=
  catch_log_rethrow
    match getQuartersSummary reply with
    | Throw e => Throw e
    | Ok quartersSummary => Ok (to_point <$> quartersSummary)
    end.

End WithNumbers.
Arguments PerformancePoint number : clear implicits.

End Performance.

(** ** The loaders of the [usePortfolioData] hook *)

Module Loaders.
Import Js PortfolioService UsePortfolioData.

(** [err instanceof Error ? err.message : fallback]; whether the SDK's error
    object is an [Error] depends on the SDK version and is a parameter. *)
Definition error_text (instanceof_Error : PostgrestError → bool)
    (fallback : string) (err : PostgrestError) : string :=
  if instanceof_Error err then message err else fallback.

Definition DATA_FRESHNESS_THRESHOLD : Z := 5 * 60 * 1000.

(** [loadQuarters], from the point where [getQuartersSummary] has settled
    with [outcome]; [now] is [Date.now()] at that point.  [captured] is the
    [selectedQuarter] that the running callback closed over, the value of
    the render that created it: [!selectedQuarter] tests that value.  [s] is
    the state the setters meet once the await is over, whose selection may
    have changed meanwhile. *)
Definition loadQuarters (instanceof_Error : PostgrestError → bool) (now : Z)
    (captured : option string)
    (outcome : Outcome (list (QuarterSummary Q))) (s : HookState) : HookState :=
  match outcome with
  | Ok quartersData =>
      let selected :=
        match given captured, quartersData with
        | None, first :: _ => Some (qs_quarter first)
        | _, _ => selectedQuarter s
        end in
      {| portfolioData := portfolioData s;
         quarters := quartersData;
         loading := loading s;
         error_message := error_message s;
         selectedQuarter := selected;
         isDataStale := false;
         lastFetchTime := now |}
  | Throw err =>
      {| portfolioData := portfolioData s;
         quarters := quarters s;
         loading := loading s;
         error_message :=
           Some (error_text instanceof_Error "Failed to load quarters" err);
         selectedQuarter := selectedQuarter s;
         isDataStale := true;
         lastFetchTime := lastFetchTime s |}
  end.

(** [loadPortfolioData]; [fetch] is the service's
    [getPortfolioByQuarter]. *)
Definition loadPortfolioData (instanceof_Error : PostgrestError → bool)
    (now : Z)
    (fetch : string → World → Outcome (list PortfolioConstituent) * World)
    (s : HookState) (w : World) : HookState * World :=
  match given (selectedQuarter s) with
  | None => (s, w)
  | Some quarter =>
      let '(outcome, w') := fetch quarter w in
      match outcome with
      | Ok data =>
          ({| portfolioData := data;
              quarters := quarters s;
              loading := false;
              error_message := None;
              selectedQuarter := selectedQuarter s;
              isDataStale := false;
              lastFetchTime := now |}, w')
      | Throw err =>
          ({| portfolioData := portfolioData s;
              quarters := quarters s;
              loading := false;
              error_message :=
                Some (error_text instanceof_Error
                        "Failed to load portfolio data" err);
              selectedQuarter := selectedQuarter s;
              isDataStale := true;
              lastFetchTime := lastFetchTime s |}, w')
      end
  end.

(** [checkDataFreshness]: the verdict and the state with it recorded. *)
Definition checkDataFreshness (now : Z) (s : HookState) : bool * HookState :=
  let isStale := bool_decide (now - lastFetchTime s > DATA_FRESHNESS_THRESHOLD) in
  (isStale,
   {| portfolioData := portfolioData s;
      quarters := quarters s;
      loading := loading s;
      error_message := error_message s;
      selectedQuarter := selectedQuarter s;
      isDataStale := isStale;
      lastFetchTime := lastFetchTime s |}).

(** [useState] initial values for [usePortfolioData(initialQuarter)]. *)
Definition mount (initialQuarter : option string) : HookState :=
  {| portfolioData := [];
     quarters := [];
     loading := true;
     error_message := None;
     selectedQuarter := given initialQuarter;
     isDataStale := false;
     lastFetchTime := 0 |}.

End Loaders.

(** ** Further vocabulary and sample inputs *)

Module Vocabulary2.
Import Js PortfolioService.

(** The distinct members of a list in the order of their first occurrence. *)
Definition first_occurrences (l : list string) : list string :=
  foldl (λ seen q, set_add q seen) [] l.

(** The total of a list of delays. *)
Definition total_wait (delays : list Z) : Z := foldr Z.add 0 delays.

(** From query [fetches w] on, the next [k] replies are errors that pass the
    gate's message test, and the one after them carries no error. *)
Definition fails_then_recovers
    (select : string → nat → Reply (list PortfolioConstituent))
    (quarter : string) (w : World) (k : nat) : Prop :=
  (∀ i, (i < k)%nat →
     ∃ e, error (select quarter (fetches w + i)%nat) = Some e ∧
          looks_like_connection_issue e = true) ∧
  error (select quarter (fetches w + k)%nat) = None.

(** No space occurs in [s]. *)
Fixpoint spaceless (s : string) : bool :=
  match s with
  | EmptyString => true
  | String c rest => negb (bool_decide (c = " "%char)) && spaceless rest
  end.

End Vocabulary2.

Module Samples2.
Import Js SessionManager PortfolioService UsePortfolioData Samples.

Definition one_row : PortfolioConstituent :=
  mkConstituent 11 "Q1 2024" "Globex" "GLBX" None (3 # 2) (1 # 4)
                "2024-02-01" "2024-02-01".

(** Two network errors, then the quarter's single row. *)
Definition recovers (_ : string) (n : nat) : Reply (list PortfolioConstituent) :=
  match n with
  | 0%nat | 1%nat => mkReply None (Some network_error)
  | _ => mkReply (Some [one_row]) None
  end.

Definition never_Error (_ : PostgrestError) : bool := false.

End Samples2.

(** ** Overlapping calls of [getPortfolioByQuarter] on the event loop *)

(** [getPortfolioByQuarter] above is the run of one call from start to end.
    The source suspends a call at each [await] (the session lookup, the
    query, the backoff timer) while [connectionRetries] is a field of the
    shared singleton; between two suspensions the code of one call runs
    without interruption.  Here every resumption is an event, and any number
    of calls are in flight. *)

Module EventLoop.
Import Js PortfolioService.

(** Where a call is suspended. *)
Inductive Phase : Type :=
| AwaitingSession                 (* [await supabase.auth.getSession()] *)
| AwaitingQuery                   (* [await supabase.from(..)...order(..)] *)
| Sleeping (delay : Z)            (* [await new Promise(.. setTimeout(.., delay))] *)
| Settled (outcome : Outcome (list PortfolioConstituent)).

(** One call in flight, with what it has observed so far. *)
Record Call : Type := mkCall {
  call_quarter : string;
  phase : Phase;
  answers : list (Reply (list PortfolioConstituent));   (* replies, oldest first *)
  waited : list Z                                       (* timer delays, oldest first *)
}.

Record Loop : Type := mkLoop {
  service : World;
  calls : gmap nat Call
}.

(** What the event loop can deliver.  [Start i q]: somebody calls
    [getPortfolioByQuarter(q)], the call being named [i].  The session lookup
    resolves (its result is only logged) or fails, by rejecting or with a
    result that cannot be destructured (the [catch] rethrows what is
    thrown); a query resolves with a reply; a backoff timer fires. *)
Inductive Event : Type :=
| Start (i : nat) (quarter : string)
| SessionResolves (i : nat)
| SessionRejects (i : nat) (e : PostgrestError)
| Replies (i : nat) (reply : Reply (list PortfolioConstituent))
| TimerFires (i : nat).

Definition subject (ev : Event) : nat :=
  match ev with
  | Start i _ => i
  | SessionResolves i => i
  | SessionRejects i _ => i
  | Replies i _ => i
  | TimerFires i => i
  end.

(** The code between the resolution of the query and the next suspension
    or the end of the call. *)
Definition on_reply (reply : Reply (list PortfolioConstituent))
    (c : Call) (w : World) : Call * World :=
  match error reply with
  | Some e =>
      if bool_decide (connectionRetries w < maxRetries)%nat
         && looks_like_connection_issue e
      then
        let w' := back_off (answered w) in
        let delay := retryDelay * Z.of_nat (connectionRetries w') in
        (mkCall (call_quarter c) (Sleeping delay)
                (answers c ++ [reply]) (waited c ++ [delay]), w')
      else
        (mkCall (call_quarter c) (Settled (catch_log_rethrow (Throw e)))
                (answers c ++ [reply]) (waited c), answered w)
  | None =>
      (mkCall (call_quarter c)
              (Settled (catch_log_rethrow (Ok (default [] (data reply)))))
              (answers c ++ [reply]) (waited c),
       reset_retries (answered w))
  end.

(** One event.  An event for a call that is not waiting for it does
    nothing. *)
Definition fire (ev : Event) (st : Loop) : Loop :=
  match ev with
  | Start i quarter =>
      match calls st !! i with
      | None =>
          mkLoop (service st)
                 (<[i := mkCall quarter AwaitingSession [] []]> (calls st))
      | Some _ => st
      end
  | SessionResolves i =>
      match calls st !! i with
      | Some (mkCall q AwaitingSession heard slept_for) =>
          mkLoop (service st)
                 (<[i := mkCall q AwaitingQuery heard slept_for]> (calls st))
      | _ => st
      end
  | SessionRejects i e =>
      match calls st !! i with
      | Some (mkCall q AwaitingSession heard slept_for) =>
          mkLoop (service st)
                 (<[i := mkCall q (Settled (catch_log_rethrow (Throw e)))
                           heard slept_for]> (calls st))
      | _ => st
      end
  | Replies i reply =>
      match calls st !! i with
      | Some (mkCall q AwaitingQuery heard slept_for) =>
          let '(c', w') :=
            on_reply reply (mkCall q AwaitingQuery heard slept_for) (service st) in
          mkLoop w' (<[i := c']> (calls st))
      | _ => st
      end
  | TimerFires i =>
      match calls st !! i with
      | Some (mkCall q (Sleeping _) heard slept_for) =>
          mkLoop (service st)
                 (<[i := mkCall q AwaitingSession heard slept_for]> (calls st))
      | _ => st
      end
  end.

(** A schedule: the events in the order the loop delivers them. *)
Definition run (evs : list Event) (st : Loop) : Loop :=
  foldl (λ st ev, fire ev st) st evs.

(** For each reply in turn: the session lookup of call [i] resolves, its
    query resolves with that reply, its timer fires. *)
Fixpoint rounds (i : nat) (replies : list (Reply (list PortfolioConstituent)))
    : list Event :=
  match replies with
  | [] => []
  | r :: rest =>
      SessionResolves i :: Replies i r :: TimerFires i :: rounds i rest
  end.

(** What the loop delivers to call [i] until its last query is answered:
    [rounds] without the timer after the last reply. *)
Fixpoint attempts (i : nat) (replies : list (Reply (list PortfolioConstituent)))
    : list Event :=
  match replies with
  | [] => []
  | r :: rest =>
      SessionResolves i :: Replies i r ::
        match rest with
        | [] => []
        | _ :: _ => TimerFires i :: attempts i rest
        end
  end.

(** What the loop delivers to call [i] for its first [n] queries when the
    backend is [select] and its next unanswered query has number [first]. *)
Definition awaited (i : nat) (quarter : string)
    (select : string → nat → Reply (list PortfolioConstituent))
    (first n : nat) : list Event :=
  attempts i (select quarter <$> seq first n).

(** No service state yet shared, no call in flight. *)
Definition idle : Loop := mkLoop initial ∅.

End EventLoop.

Module Vocabulary3.
Import Js PortfolioService EventLoop Vocabulary Vocabulary2.

(** A reply that carries an error passing the gate's message test. *)
Definition retryable_reply (r : Reply (list PortfolioConstituent)) : Prop :=
  ∃ e, error r = Some e ∧ looks_like_connection_issue e = true.

(** Every reply that the event delivers satisfies [P]. *)
Definition replies_with (P : Reply (list PortfolioConstituent) → Prop)
    (ev : Event) : Prop :=
  match ev with
  | Replies _ r => P r
  | _ => True
  end.

(** The event is not a session lookup that rejects. *)
Definition sessions_resolve (ev : Event) : Prop :=
  match ev with
  | SessionRejects _ _ => False
  | _ => True
  end.

(** The session lookups resolve and no reply, to whatever call, is a
    success. *)
Definition no_reply_succeeds (ev : Event) : Prop :=
  sessions_resolve ev ∧ replies_with (λ r, error r ≠ None) ev.

(** The session lookups resolve and every reply, to whatever call, is an
    error that passes the gate's message test: the backend keeps failing. *)
Definition backend_keeps_failing (ev : Event) : Prop :=
  sessions_resolve ev ∧ replies_with retryable_reply ev.

(** Every reply call [i] has received satisfies [P]. *)
Definition heard (P : Reply (list PortfolioConstituent) → Prop)
    (i : nat) (st : Loop) : Prop :=
  ∀ c, calls st !! i = Some c → Forall P (answers c).

(** [1 + 2 + .. + n] *)
Fixpoint triangle (n : nat) : nat :=
  match n with
  | O => O
  | S m => (triangle m + S m)%nat
  end.

(** Call [i], entered when the counter stood at [c0], as it can be found
    while the session lookups resolve and no reply succeeds, whatever calls
    overlap it. *)
Definition tracks (c0 i : nat) (st : Loop) : Prop :=
  ∃ c, calls st !! i = Some c ∧
    (connectionRetries (service st) ≤ maxRetries)%nat ∧
    (c0 + length (waited c) ≤ connectionRetries (service st))%nat ∧
    (∀ k d, waited c !! k = Some d →
       ∃ n, d = retryDelay * Z.of_nat n ∧
            (c0 + k + 1 ≤ n)%nat ∧ (n ≤ connectionRetries (service st))%nat) ∧
    total_wait (waited c) + retryDelay * Z.of_nat (triangle c0)
      ≤ retryDelay * Z.of_nat (triangle (connectionRetries (service st))) ∧
    match phase c with
    | Settled o =>
        length (answers c) = S (length (waited c)) ∧
        ∃ e, last (answers c) ≫= error = Some e ∧ o = Throw e ∧
             (looks_like_connection_issue e = true →
              (maxRetries ≤ connectionRetries (service st))%nat)
    | _ => length (answers c) = length (waited c)
    end.

(** No query of a call other than [i] resolves: nobody else touches the
    shared counter. *)
Definition undisturbed (i : nat) (ev : Event) : Prop :=
  match ev with
  | Replies j _ => j = i
  | _ => True
  end.

(** The events of call [i] in a schedule, in their order. *)
Definition own (i : nat) (evs : list Event) : list Event :=
  filter (λ ev, subject ev = i) evs.

(** Call [i] is still to be delivered, in turn, the events it awaits, and
    more queries of its own are still to be answered than the counter
    leaves retries.  (The events to come are written with the timer that
    [rounds] has after the last reply.) *)
Definition due (i : nat) (st : Loop) (evs : list Event) : Prop :=
  ∃ c, calls st !! i = Some c ∧
    match phase c with
    | AwaitingSession =>
        ∃ rs, own i evs ++ [TimerFires i] = rounds i rs ∧
              (maxRetries - connectionRetries (service st) < length rs)%nat
    | AwaitingQuery =>
        ∃ r rs, own i evs ++ [TimerFires i]
                  = Replies i r :: TimerFires i :: rounds i rs ∧
                (maxRetries - connectionRetries (service st) ≤ length rs)%nat
    | Sleeping _ =>
        ∃ rs, own i evs ++ [TimerFires i] = TimerFires i :: rounds i rs ∧
              (maxRetries - connectionRetries (service st) < length rs)%nat
    | Settled _ => True
    end.

(** Call [i], entered when the counter stood at [c0], as it can be found
    while no query of another call resolves. *)
Definition in_step (c0 i : nat) (st : Loop) : Prop :=
  ∃ c, calls st !! i = Some c ∧
    waited c = backoff_delays c0 (length (waited c)) ∧
    (length (waited c) ≤ maxRetries - c0)%nat ∧
    match phase c with
    | Settled (Ok _) => connectionRetries (service st) = 0%nat
    | _ => connectionRetries (service st) = (c0 + length (waited c))%nat
    end.

End Vocabulary3.

Module Samples3.
Import Js PortfolioService EventLoop Samples Samples2.

Definition fails : Reply (list PortfolioConstituent) :=
  mkReply None (Some network_error).

(** The hook's two calls on mount, overlapping, with the backend down. *)
Definition overlapping_mount : list Event :=
  [ Start 1 "Q1 2024"; Start 2 "Q1 2024";
    SessionResolves 1; SessionResolves 2;
    Replies 1 fails; Replies 2 fails;
    TimerFires 1; SessionResolves 1; Replies 1 fails;
    TimerFires 2; SessionResolves 2; Replies 2 fails;
    TimerFires 1; SessionResolves 1; Replies 1 fails ].

(** One call retrying until the backend recovers, while a second call is
    started and looks up its session but gets no reply yet. *)
Definition recovery_with_bystander : list Event :=
  [ SessionResolves 1; Start 2 "Q2 2024";
    Replies 1 (recovers "Q1 2024" 0); SessionResolves 2;
    TimerFires 1; SessionResolves 1; Replies 1 (recovers "Q1 2024" 1);
    TimerFires 1; SessionResolves 1; Replies 1 (recovers "Q1 2024" 2) ].

(** Call 1 fails once, a second call succeeds meanwhile and resets the
    counter, then the backend fails call 1 for good. *)
Definition reset_midway : list Event :=
  [ Start 1 "Q1 2024"; SessionResolves 1; Replies 1 fails;
    Start 2 "Q2 2024"; SessionResolves 2;
    Replies 2 (mkReply (Some [one_row]) None);
    TimerFires 1; SessionResolves 1; Replies 1 fails;
    TimerFires 1; SessionResolves 1; Replies 1 fails;
    TimerFires 1; SessionResolves 1; Replies 1 fails;
    TimerFires 1; SessionResolves 1; Replies 1 fails ].

End Samples3.

(** * Properties *)

(** ** Last-location persistence *)

Module SessionManagerFacts.
Import SessionManager Samples.

Lemma storeLocation_guarded b path ls :
  path = "/auth/callback" ∨ path = "/" → storeLocation b path ls = ls.
Proof.
  intros Hpath. unfold storeLocation.
  destruct (has_window b); simpl; [|done].
  destruct Hpath as [-> | ->]; done.
Qed.

Lemma storeLocation_stores b path ls :
  has_window b = true → setItem_throws b = false →
  path ≠ "/auth/callback" → path ≠ "/" →
  storeLocation b path ls =
    <[LOCATION_KEY := SessionJson (mkSessionState (Some path) (now b) None)]> ls.
Proof.
  intros Hw Hs Hcb Hroot. unfold storeLocation. rewrite Hw, Hs. simpl.
  rewrite !bool_decide_eq_false_2 by done. done.
Qed.

(** C4, as stated, fails: [storeLocation] called with the denylisted path
    ['/login'] on empty storage writes a last-location entry for it. *)
Lemma storeLocation_stores_login :
  "/login" ∈ excludedPaths ∧
  storeLocation (tab 1700000000000) "/login" ∅ ≠ ∅ ∧
  storeLocation (tab 1700000000000) "/login" ∅ !! LOCATION_KEY =
    Some (SessionJson (mkSessionState (Some "/login") 1700000000000 None)).
Proof.
  split; [|split].
  - unfold excludedPaths. set_solver.
  - rewrite storeLocation_stores by done. apply insert_non_empty.
  - rewrite storeLocation_stores by done. apply lookup_insert_eq.
Qed.

(** C4, amended: every path of the denylist (['/auth/callback'], ['/'],
    ['/login'], ['/signup']) is rejected by [shouldStorePath];
    [storeLocation] itself leaves the storage unchanged for ['/'] and
    ['/auth/callback'] only, and, in a browser whose storage accepts the
    write, records ['/login'] and ['/signup'] like any other path. *)
Theorem storeLocation_denylist b path ls :
  path ∈ excludedPaths →
  shouldStorePath path = false ∧
  (path = "/" ∨ path = "/auth/callback" → storeLocation b path ls = ls) ∧
  (path = "/login" ∨ path = "/signup" →
   has_window b = true → setItem_throws b = false →
   storeLocation b path ls =
     <[LOCATION_KEY := SessionJson (mkSessionState (Some path) (now b) None)]> ls).
Proof.
  intros Hin. split; [|split].
  - unfold shouldStorePath, Js.array_includes.
    rewrite bool_decide_eq_true_2 by done. done.
  - intros [-> | ->]; apply storeLocation_guarded; auto.
  - intros Hpath Hw Hs.
    apply storeLocation_stores; [done | done | |];
      destruct Hpath as [-> | ->]; discriminate.
Qed.

Lemma storeLocation_denylist_witness :
  shouldStorePath "/" = false ∧
  storeLocation (tab 5) "/" ∅ = ∅.
Proof.
  assert (Hin : "/" ∈ excludedPaths) by (unfold excludedPaths; set_solver).
  destruct (storeLocation_denylist (tab 5) "/" ∅ Hin) as (Hshould & Hskip & _).
  split; [exact Hshould | apply Hskip; left; reflexivity].
Defined.

(** C5, as stated, fails at the boundary: an entry whose age has reached
    the threshold exactly (24 hours, to the millisecond) is still returned
    and is not cleared. *)
Lemma getStoredLocation_at_threshold :
  let stored := storeLocation (tab 0) "/momentum" ∅ in
  let later := tab SESSION_TIMEOUT in
  now later - 0 = SESSION_TIMEOUT ∧
  getStoredLocation later stored = (Some "/momentum", stored).
Proof. split; reflexivity. Qed.

(** C5, amended: for a stored last-location entry with timestamp [t],
    [getStoredLocation] called at time [now] returns the stored path, and
    keeps the entry, as long as [now - t] does not exceed the 24-hour
    threshold (86,400,000 ms), and returns null, removing the entry, once
    [now - t] exceeds it. *)
Theorem getStoredLocation_expiry b ls entry :
  has_window b = true →
  ls !! LOCATION_KEY = Some (SessionJson entry) →
  SESSION_TIMEOUT = 86400000 ∧
  (now b - timestamp entry ≤ SESSION_TIMEOUT →
   getStoredLocation b ls = (lastLocation entry, ls)) ∧
  (now b - timestamp entry > SESSION_TIMEOUT →
   getStoredLocation b ls = (None, delete LOCATION_KEY ls)).
Proof.
  intros Hw Hentry. split; [reflexivity|].
  unfold getStoredLocation, clearStoredLocation.
  rewrite Hw, Hentry. simpl.
  split; intros Hage.
  - rewrite bool_decide_eq_false_2 by lia. done.
  - rewrite bool_decide_eq_true_2 by lia. done.
Qed.

Lemma getStoredLocation_expiry_witness :
  let stored := storeLocation (tab 1000) "/backtest" ∅ in
  getStoredLocation (tab 86401000) stored = (Some "/backtest", stored) ∧
  getStoredLocation (tab 86401001) stored = (None, delete LOCATION_KEY stored).
Proof.
  intros stored.
  assert (Hentry : stored !! LOCATION_KEY =
            Some (SessionJson (mkSessionState (Some "/backtest") 1000 None)))
    by reflexivity.
  split.
  - destruct (getStoredLocation_expiry (tab 86401000) stored _ eq_refl Hentry)
      as (_ & Hfresh & _).
    apply Hfresh. simpl. unfold SESSION_TIMEOUT. lia.
  - destruct (getStoredLocation_expiry (tab 86401001) stored _ eq_refl Hentry)
      as (_ & _ & Hstale).
    apply Hstale. simpl. unfold SESSION_TIMEOUT. lia.
Defined.

End SessionManagerFacts.

(** ** Fetching a quarter: the retry gate and its bound *)

Module RetryFacts.
Import Js PortfolioService Vocabulary Samples.

(** One round of [getPortfolioByQuarter], without the [Equations] plumbing. *)
Lemma getPortfolioByQuarter_unfold select quarter w :
  getPortfolioByQuarter select quarter w =
  match error (select quarter (fetches w)) with
  | Some e =>
      if bool_decide (connectionRetries w < maxRetries)%nat
         && looks_like_connection_issue e
      then getPortfolioByQuarter select quarter (back_off (answered w))
      else (Throw e, answered w)
  | None => (Ok (default [] (data (select quarter (fetches w)))),
             reset_retries (answered w))
  end.
Proof.
  remember (getPortfolioByQuarter select quarter (back_off (answered w)))
    as rec eqn:Hrec.
  simp getPortfolioByQuarter.
  destruct (select quarter (fetches w)) as [d [e|]]; simpl; [|done].
  destruct (decide (connectionRetries w < maxRetries)%nat) as [Hlt|Hge]; simpl.
  - rewrite bool_decide_eq_true_2 by done. simpl.
    destruct (looks_like_connection_issue e); simpl; [|done].
    rewrite <- Hrec. destruct rec as [[r|r] w']; done.
  - rewrite bool_decide_eq_false_2 by done. done.
Qed.

(** An error on which the gate is closed is thrown at once. *)
Lemma getPortfolioByQuarter_gate_closed select quarter w e :
  error (select quarter (fetches w)) = Some e →
  (maxRetries ≤ connectionRetries w)%nat ∨ looks_like_connection_issue e = false →
  getPortfolioByQuarter select quarter w = (Throw e, answered w).
Proof.
  intros He Hgate. rewrite getPortfolioByQuarter_unfold, He.
  destruct Hgate as [Hmax | ->].
  - rewrite bool_decide_eq_false_2 by lia. done.
  - rewrite andb_false_r. done.
Qed.

Lemma backoff_delays_S c n :
  backoff_delays c (S n) =
    retryDelay * Z.of_nat (S c) :: backoff_delays (S c) n.
Proof.
  unfold backoff_delays. cbn [seq map]. f_equal.
  - f_equal. lia.
  - rewrite <- seq_shift, map_map. apply map_ext. intros k. f_equal. lia.
Qed.

Lemma keeps_failing_back_off select quarter w :
  keeps_failing select quarter w →
  keeps_failing select quarter (back_off (answered w)).
Proof. intros Hfail n Hn. apply Hfail. simpl in Hn. lia. Qed.

Lemma exhausts_after n : ∀ select quarter w,
  (maxRetries - connectionRetries w)%nat = n →
  keeps_failing select quarter w →
  ∃ e, error (select quarter (fetches w + n)%nat) = Some e ∧
       getPortfolioByQuarter select quarter w =
         (Throw e,
          mkWorld (realtimeChannel w) (subscribers w)
                  (connectionRetries w + n) (S (fetches w + n))
                  (slept w ++ backoff_delays (connectionRetries w) n)
                  (open_channels w) (channels_created w)).
Proof.
  induction n as [|n IH]; intros select quarter w Hbudget Hfail.
  - destruct (Hfail (fetches w)) as (e & He & _); [lia|].
    exists e. rewrite Nat.add_0_r. split; [done|].
    rewrite (getPortfolioByQuarter_gate_closed _ _ _ e) by (auto; left; lia).
    destruct w; simpl. rewrite app_nil_r, !Nat.add_0_r. done.
  - destruct (Hfail (fetches w)) as (e & He & Hmsg); [lia|].
    rewrite getPortfolioByQuarter_unfold, He, Hmsg.
    rewrite bool_decide_eq_true_2 by lia. simpl.
    destruct (IH select quarter (back_off (answered w))) as (e' & He' & ->).
    { change (connectionRetries (back_off (answered w)))
        with (S (connectionRetries w)). lia. }
    { by apply keeps_failing_back_off. }
    exists e'. simpl in He'. split.
    { rewrite <- He'. do 2 f_equal. lia. }
    f_equal. destruct w; simpl.
    rewrite backoff_delays_S, <- app_assoc. simpl.
    f_equal; lia.
Qed.

(** The last reply consulted decides the outcome: an error in it is thrown,
    and a result is returned only when it carried none. *)
Lemma getPortfolioByQuarter_last_reply select quarter : ∀ w,
  let run := getPortfolioByQuarter select quarter w in
  (fetches w < fetches run.2)%nat ∧
  run.1 = match error (select quarter (pred (fetches run.2))) with
          | Some e => Throw e
          | None => Ok (default [] (data (select quarter (pred (fetches run.2)))))
          end.
Proof.
  intros w. remember (maxRetries - connectionRetries w)%nat as m eqn:Hm.
  revert w Hm. induction m as [m IH] using lt_wf_ind. intros w Hm.
  rewrite getPortfolioByQuarter_unfold.
  destruct (error (select quarter (fetches w))) as [e|] eqn:He.
  - destruct (bool_decide (connectionRetries w < maxRetries)%nat) eqn:Hlt;
      simpl.
    + apply bool_decide_eq_true_1 in Hlt.
      destruct (looks_like_connection_issue e).
      * destruct (IH (maxRetries - S (connectionRetries w))%nat)
          with (w := back_off (answered w)) as [Hgrow Hout];
          [lia | done |].
        split; [|exact Hout].
        etrans; [|exact Hgrow]. simpl. lia.
      * simpl. rewrite He. split; [lia | done].
    + simpl. rewrite He. split; [lia | done].
  - simpl. rewrite He. split; [lia | done].
Qed.

(** Fetching never touches the channel or the subscriber set. *)
Lemma getPortfolioByQuarter_frame select quarter : ∀ w,
  let w' := (getPortfolioByQuarter select quarter w).2 in
  realtimeChannel w' = realtimeChannel w ∧
  subscribers w' = subscribers w ∧
  open_channels w' = open_channels w ∧
  channels_created w' = channels_created w.
Proof.
  intros w. remember (maxRetries - connectionRetries w)%nat as m eqn:Hm.
  revert w Hm. induction m as [m IH] using lt_wf_ind. intros w Hm.
  rewrite getPortfolioByQuarter_unfold.
  destruct (error (select quarter (fetches w))) as [e|]; [|done].
  destruct (bool_decide (connectionRetries w < maxRetries)%nat) eqn:Hlt;
    simpl; [|done].
  apply bool_decide_eq_true_1 in Hlt.
  destruct (looks_like_connection_issue e); [|done].
  apply (IH (maxRetries - S (connectionRetries w))%nat
            ltac:(lia) (back_off (answered w)) eq_refl).
Qed.

Lemma down_keeps_failing quarter w : keeps_failing down quarter w.
Proof. intros n _. exists network_error. done. Qed.

(** C2, as stated, fails: after a call that retried once and then met a
    non-retryable error, the retry counter is left at 1; the next call,
    against a backend that keeps failing with a retryable error, waits
    2000 ms before its first retry (not 1 x 1000 ms) and 3000 ms before its
    second and last. *)
Lemma backoff_after_stale_counter :
  let w1 := (getPortfolioByQuarter flaky "Q1 2024" initial).2 in
  let w2 := (getPortfolioByQuarter down "Q1 2024" w1).2 in
  reachable w1 ∧
  connectionRetries w1 = 1%nat ∧
  keeps_failing down "Q1 2024" w1 ∧
  slept w2 = slept w1 ++ [2000; 3000] ∧
  ¬ linear_from_one [2000; 3000].
Proof.
  intros w1 w2. split; [|split; [|split; [|split]]].
  - apply (reachable_step initial); [constructor|]. apply step_fetch.
  - reflexivity.
  - apply down_keeps_failing.
  - reflexivity.
  - intros Hlin. specialize (Hlin 0%nat 2000 eq_refl). discriminate Hlin.
Qed.

(** C3: in [getPortfolioByQuarter], an error whose message contains neither
    "connection" nor "network" is thrown at once, after the one query and
    without any delay; and a retry (a delay awaited) happens only on an
    error whose message contains one of the two. *)
Theorem retry_only_on_connection_issue select quarter w e :
  error (select quarter (fetches w)) = Some e →
  let run := getPortfolioByQuarter select quarter w in
  (includes (message e) "connection" = false →
   includes (message e) "network" = false →
   run.1 = Throw e ∧ fetches run.2 = S (fetches w) ∧ slept run.2 = slept w) ∧
  (slept run.2 ≠ slept w →
   includes (message e) "connection" = true ∨
   includes (message e) "network" = true).
Proof.
  intros He run.
  assert (Hclosed : looks_like_connection_issue e = false →
            run.1 = Throw e ∧ fetches run.2 = S (fetches w) ∧
            slept run.2 = slept w).
  { intros Hmsg. unfold run.
    rewrite (getPortfolioByQuarter_gate_closed _ _ _ e) by auto. done. }
  split.
  - intros Hc Hn. apply Hclosed. unfold looks_like_connection_issue.
    rewrite Hc, Hn. done.
  - intros Hslept.
    destruct (includes (message e) "connection") eqn:Hc; [by left|].
    destruct (includes (message e) "network") eqn:Hn; [by right|].
    destruct Hslept. apply Hclosed. unfold looks_like_connection_issue.
    rewrite Hc, Hn. done.
Qed.

Lemma retry_only_on_connection_issue_witness :
  let run := getPortfolioByQuarter flaky "Q1 2024" (answered initial) in
  run.1 = Throw permission_error ∧ fetches run.2 = 2%nat ∧ slept run.2 = [].
Proof.
  intros run.
  destruct (retry_only_on_connection_issue flaky "Q1 2024" (answered initial)
              permission_error eq_refl) as [Hthrown _].
  exact (Hthrown eq_refl eq_refl).
Defined.

End RetryFacts.

(** ** Remote failures reach the caller *)

Module ErrorFacts.
Import Js PortfolioService Vocabulary Samples RetryFacts.

(** C8: when the latest-quarter query comes back without error and without
    rows (an empty array, or no data at all), [getLatestPortfolio] returns
    the empty list, throws nothing, and asks the backend nothing more; so
    does the variant without retry. *)
Theorem getLatestPortfolio_empty_table latest select w :
  error latest = None →
  data latest = Some [] ∨ data latest = None →
  getLatestPortfolio latest select w = (Ok [], w) ∧
  NoRetry.getLatestPortfolio latest select w = (Ok [], w).
Proof.
  intros Herr Hdata.
  unfold getLatestPortfolio, NoRetry.getLatestPortfolio. rewrite Herr.
  destruct Hdata as [-> | ->]; done.
Qed.

Lemma getLatestPortfolio_empty_table_witness :
  getLatestPortfolio empty_table down initial = (Ok [], initial).
Proof.
  apply (getLatestPortfolio_empty_table empty_table down initial eq_refl).
  left. reflexivity.
Defined.

(** C6: every data operation of the service throws the error that its
    backend call returned.  For [getPortfolioByQuarter] this holds when the
    retry gate is closed for that error (retries used up, or a message
    without "connection" and "network"), and in any case for the error of
    the last reply the call consulted; [getLatestPortfolio] throws the error
    of its latest-quarter query and otherwise behaves as
    [getPortfolioByQuarter] on the quarter found. *)
Theorem remote_errors_are_thrown (e : PostgrestError) :
  (∀ select quarter w,
     error (select quarter (fetches w)) = Some e →
     (maxRetries ≤ connectionRetries w)%nat
       ∨ looks_like_connection_issue e = false →
     (getPortfolioByQuarter select quarter w).1 = Throw e) ∧
  (∀ select quarter w,
     let run := getPortfolioByQuarter select quarter w in
     error (select quarter (pred (fetches run.2))) = Some e →
     run.1 = Throw e) ∧
  (∀ select quarter w,
     error (select quarter (fetches w)) = Some e →
     (NoRetry.getPortfolioByQuarter select quarter w).1 = Throw e) ∧
  (∀ latest select w,
     error latest = Some e →
     (getLatestPortfolio latest select w).1 = Throw e) ∧
  (∀ latest select w quarter rest,
     error latest = None → data latest = Some (quarter :: rest) →
     let run := getLatestPortfolio latest select w in
     error (select quarter (pred (fetches run.2))) = Some e →
     run.1 = Throw e) ∧
  (∀ latest select w,
     error latest = Some e →
     (NoRetry.getLatestPortfolio latest select w).1 = Throw e) ∧
  (∀ (number : Type) (arith : JsNumber number)
     (reply : Reply (list (SummaryRow number))),
     error reply = Some e →
     getQuartersSummary reply = Throw e ∧
     NoRetry.getQuartersSummary reply = Throw e) ∧
  (∀ insert constituent,
     error (insert [constituent]) = Some e →
     addConstituent insert constituent = Throw e) ∧
  (∀ update id updates,
     error (update id updates) = Some e →
     updateConstituent update id updates = Throw e) ∧
  (∀ delete id,
     error (delete id) = Some e →
     deleteConstituent delete id = Throw e) ∧
  (∀ insert constituents,
     error (insert constituents) = Some e →
     bulkInsertConstituents insert constituents = Throw e) ∧
  (∀ search searchTerm quarter,
     error (search (or_filter searchTerm) (given quarter)) = Some e →
     searchConstituents search searchTerm quarter = Throw e).
Proof.
  repeat apply conj.
  - intros select quarter w He Hgate.
    by rewrite (getPortfolioByQuarter_gate_closed _ _ _ e).
  - intros select quarter w run He.
    destruct (getPortfolioByQuarter_last_reply select quarter w) as [_ Hout].
    fold run in Hout. rewrite Hout, He. done.
  - intros select quarter w He.
    unfold NoRetry.getPortfolioByQuarter. simpl. by rewrite He.
  - intros latest select w He. unfold getLatestPortfolio. by rewrite He.
  - intros latest select w quarter rest Herr Hdata.
    unfold getLatestPortfolio. rewrite Herr, Hdata.
    destruct (getPortfolioByQuarter_last_reply select quarter w) as [_ Hout].
    destruct (getPortfolioByQuarter select quarter w) as [r w'].
    simpl in *. intros He. rewrite Hout, He. done.
  - intros latest select w He. unfold NoRetry.getLatestPortfolio.
    by rewrite He.
  - intros number arith reply He.
    unfold getQuartersSummary, NoRetry.getQuartersSummary. by rewrite He.
  - intros insert constituent He. unfold addConstituent. by rewrite He.
  - intros update id updates He. unfold updateConstituent. by rewrite He.
  - intros delete id He. unfold deleteConstituent. by rewrite He.
  - intros insert constituents He. unfold bulkInsertConstituents. by rewrite He.
  - intros search searchTerm quarter He. unfold searchConstituents.
    by rewrite He.
Qed.

Lemma remote_errors_are_thrown_witness :
  (getPortfolioByQuarter flaky "Q1 2024" initial).1 = Throw permission_error ∧
  addConstituent refuses_insert sample_constituent = Throw permission_error.
Proof.
  destruct (remote_errors_are_thrown permission_error)
    as (_ & Hlast & _ & _ & _ & _ & _ & Hadd & _).
  split.
  - apply (Hlast flaky "Q1 2024" initial). reflexivity.
  - apply (Hadd refuses_insert sample_constituent). reflexivity.
Defined.

End ErrorFacts.

(** ** The quarter aggregation *)

Module AggregationFacts.
Import Js PortfolioService Vocabulary Samples.

Section MapFacts.
Context {V : Type}.
Implicit Types (m : list (string * V)) (k : string) (v : V).

Lemma map_get_None k m : map_get k m = None ↔ k ∉ m.*1.
Proof.
  induction m as [|[k' v'] m IH]; simpl.
  - split; [intros _; apply not_elem_of_nil | done].
  - rewrite not_elem_of_cons. case_bool_decide as Hk.
    + split; [done | intros [Hne _]; by destruct Hne].
    + rewrite IH. split; [by split | by intros [_ ?]].
Qed.

Lemma map_get_set_eq k v m : map_get k (map_set k v m) = Some v.
Proof.
  induction m as [|[k' v'] m IH]; simpl.
  - by rewrite bool_decide_eq_true_2.
  - case_bool_decide as Hk; simpl.
    + by rewrite bool_decide_eq_true_2.
    + by rewrite bool_decide_eq_false_2.
Qed.

Lemma map_get_set_ne k k' v m :
  k ≠ k' → map_get k' (map_set k v m) = map_get k' m.
Proof.
  intros Hne. induction m as [|[k0 v0] m IH]; simpl.
  - by rewrite bool_decide_eq_false_2.
  - case_bool_decide as Hk; simpl.
    + subst k0. by rewrite !bool_decide_eq_false_2.
    + by rewrite IH.
Qed.

Lemma map_set_keys k v m :
  (map_set k v m).*1 = if bool_decide (k ∈ m.*1) then m.*1 else m.*1 ++ [k].
Proof.
  induction m as [|[k' v'] m IH]; [done|]. cbn [map_set].
  destruct (bool_decide_reflect (k' = k)) as [Hk|Hk];
    rewrite !fmap_cons; cbn [fst].
  - subst k'. rewrite bool_decide_eq_true_2 by left. done.
  - rewrite IH. destruct (bool_decide_reflect (k ∈ m.*1)) as [Hin|Hin].
    + rewrite bool_decide_eq_true_2 by (by right). done.
    + rewrite bool_decide_eq_false_2; [done|].
      rewrite elem_of_cons. intros [-> | ?]; done.
Qed.

Lemma map_get_elem_of k v m :
  NoDup m.*1 → (k, v) ∈ m → map_get k m = Some v.
Proof.
  induction m as [|[k' v'] m IH]; simpl.
  - intros _ Hin. by apply elem_of_nil in Hin.
  - rewrite NoDup_cons, elem_of_cons. intros [Hfresh Hnodup] [Heq | Hin].
    + injection Heq as -> ->. by rewrite bool_decide_eq_true_2.
    + case_bool_decide as Hk.
      * subst k'. destruct Hfresh. apply list_elem_of_fmap.
        by exists (k, v).
      * by apply IH.
Qed.

Lemma elem_of_map_set k v k' v' m :
  (k', v') ∈ map_set k v m → (k', v') = (k, v) ∨ (k', v') ∈ m.
Proof.
  induction m as [|[k0 v0] m IH]; simpl.
  - rewrite list_elem_of_singleton. by left.
  - case_bool_decide as Hk; rewrite !elem_of_cons.
    + intros [? | ?]; [by left | by right; right].
    + intros [? | Hin]; [by right; left|].
      destruct (IH Hin); [by left | by right; right].
Qed.

End MapFacts.

Section Grouping.
Context {number : Type} `{JsNumber number}.
Implicit Types (rows : list (SummaryRow number)) (q : string).

Lemma rows_of_snoc q rows r :
  rows_of q (rows ++ [r]) =
    rows_of q rows ++ (if bool_decide (quarter r = q) then [r] else []).
Proof.
  unfold rows_of. rewrite filter_app. f_equal.
  case_bool_decide.
  - by rewrite filter_cons_True.
  - by rewrite filter_cons_False.
Qed.

Lemma rows_of_nil_iff q rows : rows_of q rows = [] ↔ q ∉ quarter <$> rows.
Proof.
  unfold rows_of. induction rows as [|r rows IH].
  - split; [intros _; apply not_elem_of_nil | done].
  - rewrite fmap_cons, not_elem_of_cons, <- IH.
    destruct (decide (quarter r = q)) as [Heq|Hne].
    + rewrite filter_cons_True by done.
      split; [done | intros [Hq _]; by destruct Hq].
    + rewrite filter_cons_False by done.
      split; [by split | by intros [_ ?]].
Qed.

Lemma sum_snoc xs x : sum (xs ++ [x]) = num_add (sum xs) x.
Proof. unfold sum. by rewrite foldl_app. Qed.

Lemma totals_of_snoc_same rows r :
  totals_of (quarter r) (rows ++ [r]) =
    {| t_total_stocks := t_total_stocks (totals_of (quarter r) rows) + 1;
       t_total_returns :=
         num_add (t_total_returns (totals_of (quarter r) rows))
                 (quarterly_returns r);
       t_total_weight :=
         num_add (t_total_weight (totals_of (quarter r) rows)) (weight r) |}.
Proof.
  unfold totals_of. rewrite rows_of_snoc, bool_decide_eq_true_2 by done.
  rewrite !fmap_app. cbn [fmap list_fmap].
  rewrite !sum_snoc, length_app. done.
Qed.

Lemma totals_of_snoc_other q rows r :
  quarter r ≠ q → totals_of q (rows ++ [r]) = totals_of q rows.
Proof.
  intros Hne. unfold totals_of.
  rewrite rows_of_snoc, bool_decide_eq_false_2, app_nil_r by done. done.
Qed.

Lemma group_by_quarter_snoc rows r :
  group_by_quarter (rows ++ [r]) = accumulate (group_by_quarter rows) r.
Proof. unfold group_by_quarter. by rewrite foldl_app. Qed.

(** The loop invariant of the [forEach]: the map holds exactly the quarters
    seen so far, once each, with the totals of their rows. *)
Lemma group_by_quarter_totals rows :
  NoDup (group_by_quarter rows).*1 ∧
  (∀ q, q ∈ (group_by_quarter rows).*1 ↔ q ∈ quarter <$> rows) ∧
  (∀ q t, map_get q (group_by_quarter rows) = Some t → t = totals_of q rows).
Proof.
  induction rows as [|r rows (Hnodup & Hkeys & Hget)] using rev_ind.
  - split; [constructor|]. split; [done|]. intros q t Hq. discriminate Hq.
  - rewrite group_by_quarter_snoc. unfold accumulate.
    set (m := group_by_quarter rows) in *.
    assert (Hexisting :
      match map_get (quarter r) m with
      | Some t => t
      | None => {| t_total_stocks := 0; t_total_returns := num_zero;
                   t_total_weight := num_zero |}
      end = totals_of (quarter r) rows).
    { destruct (map_get (quarter r) m) as [t|] eqn:Hm; [by apply Hget|].
      apply map_get_None in Hm. rewrite Hkeys in Hm.
      apply rows_of_nil_iff in Hm. unfold totals_of. by rewrite Hm. }
    rewrite Hexisting.
    split; [|split].
    + rewrite map_set_keys. case_bool_decide as Hin; [done|].
      apply NoDup_app. split; [done|]. split; [|apply NoDup_singleton].
      intros q Hq ->%list_elem_of_singleton. done.
    + intros q. rewrite map_set_keys, fmap_app, elem_of_app.
      simpl. rewrite list_elem_of_singleton, <- Hkeys.
      case_bool_decide as Hin.
      * split; [by left | intros [? | ->]; done].
      * by rewrite elem_of_app, list_elem_of_singleton.
    + intros q t. destruct (decide (quarter r = q)) as [<- | Hne].
      * rewrite map_get_set_eq. intros [= <-].
        by rewrite totals_of_snoc_same.
      * rewrite map_get_set_ne, totals_of_snoc_other by done. apply Hget.
Qed.

(** Every entry of the map was made by an increment. *)
Lemma accumulate_positive (m : list (string * Totals number)) r :
  (∀ q t, (q, t) ∈ m → (1 ≤ t_total_stocks t)%nat) →
  ∀ q t, (q, t) ∈ accumulate m r → (1 ≤ t_total_stocks t)%nat.
Proof.
  intros Hm q t Hin. unfold accumulate in Hin.
  apply elem_of_map_set in Hin as [[= _ ->] | Hin]; [simpl; lia|].
  by apply (Hm q).
Qed.

Lemma foldl_accumulate_positive rows : ∀ (m : list (string * Totals number)),
  (∀ q t, (q, t) ∈ m → (1 ≤ t_total_stocks t)%nat) →
  ∀ q t, (q, t) ∈ foldl accumulate m rows → (1 ≤ t_total_stocks t)%nat.
Proof.
  induction rows as [|r rows IH]; intros m Hm; simpl; [done|].
  apply IH. by apply accumulate_positive.
Qed.

Lemma getQuartersSummary_ok rows :
  getQuartersSummary (mkReply (Some rows) None)
    = Ok (to_summary <$> group_by_quarter rows) ∧
  NoRetry.getQuartersSummary (mkReply (Some rows) None)
    = Ok (to_summary <$> group_by_quarter rows).
Proof. by destruct rows. Qed.

Lemma summary_quarters (m : list (string * Totals number)) :
  qs_quarter <$> (to_summary <$> m) = m.*1.
Proof.
  rewrite <- list_fmap_compose. apply list_fmap_ext.
  intros _ [q t] _. done.
Qed.

(** C1: for every list of input rows, [getQuartersSummary] returns one
    summary per distinct quarter label of the input; in the summary of a
    quarter, [total_stocks] is the number of input rows with that quarter,
    [total_weight] is the sum of their weights and [avg_returns] is the sum
    of their quarterly returns divided by that number (sums taken in input
    order, whatever the arithmetic of [number]).  The variant without the
    empty-data shortcut returns the same summaries. *)
Theorem getQuartersSummary_aggregates rows :
  ∃ summaries,
    getQuartersSummary (mkReply (Some rows) None) = Ok summaries ∧
    NoRetry.getQuartersSummary (mkReply (Some rows) None) = Ok summaries ∧
    NoDup (qs_quarter <$> summaries) ∧
    (∀ q, q ∈ qs_quarter <$> summaries ↔ q ∈ quarter <$> rows) ∧
    ∀ s, s ∈ summaries →
      total_stocks s = length (rows_of (qs_quarter s) rows) ∧
      total_weight s = sum (weight <$> rows_of (qs_quarter s) rows) ∧
      avg_returns s =
        num_div (sum (quarterly_returns <$> rows_of (qs_quarter s) rows))
                (num_of_count (length (rows_of (qs_quarter s) rows))).
Proof.
  destruct (getQuartersSummary_ok rows) as [Hnew Hold].
  destruct (group_by_quarter_totals rows) as (Hnodup & Hkeys & Hget).
  exists (to_summary <$> group_by_quarter rows).
  split; [exact Hnew|]. split; [exact Hold|].
  rewrite summary_quarters. split; [exact Hnodup|]. split; [exact Hkeys|].
  intros s ([q t] & -> & Hin)%list_elem_of_fmap.
  apply (map_get_elem_of _ _ _ Hnodup), Hget in Hin. subst t. done.
Qed.

Lemma Q_count_nonzero (n : nat) :
  (1 ≤ n)%nat → ¬ (num_of_count n == 0)%Q.
Proof.
  intros Hn Hzero. unfold num_of_count, Q_JsNumber, Qeq in Hzero.
  simpl in Hzero. lia.
Qed.

(** C10: every entry of the grouping map has [total_stocks] at least 1 when
    the summaries are built, so the divisor in
    [total_returns / total_stocks] is the count of at least one row, for any
    input row list; read as a rational, such a count is not zero. *)
Theorem quarter_totals_positive rows :
  (∀ q t, (q, t) ∈ map_entries (group_by_quarter rows) →
          (1 ≤ t_total_stocks t)%nat) ∧
  (∃ summaries,
     getQuartersSummary (mkReply (Some rows) None) = Ok summaries ∧
     ∀ s, s ∈ summaries →
       ∃ q t, (q, t) ∈ map_entries (group_by_quarter rows) ∧
              avg_returns s =
                num_div (t_total_returns t) (num_of_count (t_total_stocks t)) ∧
              total_stocks s = t_total_stocks t ∧
              (1 ≤ t_total_stocks t)%nat) ∧
  (∀ n : nat, (1 ≤ n)%nat → ¬ (num_of_count n == 0)%Q).
Proof.
  assert (Hpos : ∀ q t, (q, t) ∈ map_entries (group_by_quarter rows) →
                        (1 ≤ t_total_stocks t)%nat).
  { apply foldl_accumulate_positive. intros q t Hin.
    by apply elem_of_nil in Hin. }
  split; [exact Hpos|]. split; [|exact Q_count_nonzero].
  exists (to_summary <$> group_by_quarter rows).
  split; [apply getQuartersSummary_ok|].
  intros s ([q t] & -> & Hin)%list_elem_of_fmap.
  exists q, t. split; [exact Hin|]. split; [done|]. split; [done|].
  by apply (Hpos q).
Qed.

End Grouping.

Example getQuartersSummary_sample :
  getQuartersSummary (mkReply (Some sample_rows) None) =
  Ok [ mkSummary "Q2 2024" 2 (12 # 2) (6 # 8);
       mkSummary "Q1 2024" 1 3 (1 # 4) ]%Q.
Proof. reflexivity. Qed.

End AggregationFacts.

(** ** The real-time channel and its subscribers *)

Module ChannelFacts.
Import Js PortfolioService Vocabulary Samples RetryFacts.

Lemma elem_of_set_add (x y : Callback) s :
  y ∈ set_add x s ↔ y ∈ s ∨ y = x.
Proof.
  unfold set_add. case_bool_decide as Hin.
  - split; [by left | intros [? | ->]; done].
  - by rewrite elem_of_app, list_elem_of_singleton.
Qed.

Lemma set_add_NoDup (x : Callback) s : NoDup s → NoDup (set_add x s).
Proof.
  intros Hs. unfold set_add. case_bool_decide as Hin; [done|].
  apply NoDup_app. split; [done|]. split; [|apply NoDup_singleton].
  intros y Hy ->%list_elem_of_singleton. done.
Qed.

Lemma set_add_nonempty (x : Callback) s : set_add x s ≠ [].
Proof.
  intros Hnil. assert (Hx : x ∈ set_add x s) by (apply elem_of_set_add; by right).
  rewrite Hnil in Hx. by apply elem_of_nil in Hx.
Qed.

Lemma elem_of_set_delete (x y : Callback) s :
  y ∈ set_delete x s ↔ y ∈ s ∧ y ≠ x.
Proof. unfold set_delete. rewrite list_elem_of_filter. tauto. Qed.

Lemma close_own_channel ch :
  close_channel ch [channel_id ch] = [].
Proof.
  unfold close_channel. by rewrite filter_cons_False, filter_nil by auto.
Qed.

Lemma getLatestPortfolio_frame latest select w :
  let w' := (getLatestPortfolio latest select w).2 in
  realtimeChannel w' = realtimeChannel w ∧
  subscribers w' = subscribers w ∧
  open_channels w' = open_channels w ∧
  channels_created w' = channels_created w.
Proof.
  unfold getLatestPortfolio.
  destruct (error latest); [done|].
  destruct (data latest) as [[|q rest]|]; [done| |done].
  pose proof (getPortfolioByQuarter_frame select q w) as Hframe.
  destruct (getPortfolioByQuarter select q w) as [r w']. exact Hframe.
Qed.

Lemma channel_invariant_frame w w' :
  realtimeChannel w' = realtimeChannel w ∧
  subscribers w' = subscribers w ∧
  open_channels w' = open_channels w ∧
  channels_created w' = channels_created w →
  channel_invariant w → channel_invariant w'.
Proof.
  unfold channel_invariant. intros (-> & -> & -> & _). done.
Qed.

Lemma step_preserves w w' :
  step w w' → channel_invariant w → channel_invariant w'.
Proof.
  intros Hstep (Hopen & Hheld & Hnodup).
  destruct Hstep as [cb quarter w | cb w | w | select quarter w | latest select w].
  - unfold subscribeToUpdates, channel_invariant.
    destruct (realtimeChannel w) as [ch|]; simpl.
    + split; [done|]. split; [intros _; apply set_add_nonempty|].
      by apply set_add_NoDup.
    + rewrite Hopen. split; [done|].
      split; [intros _; apply set_add_nonempty|]. by apply set_add_NoDup.
  - unfold unsubscribe, channel_invariant.
    destruct (realtimeChannel w) as [ch|]; simpl.
    + case_bool_decide as Hlast; simpl.
      * rewrite Hopen, close_own_channel. split; [done|].
        split; [done|]. by apply NoDup_filter.
      * split; [done|]. split; [|by apply NoDup_filter].
        intros _ Hnil. apply Hlast. unfold set_size. by rewrite Hnil.
    + split; [done|]. split; [done|]. by apply NoDup_filter.
  - unfold reconnect_timer_fires, channel_invariant. simpl.
    split; [|done].
    destruct (realtimeChannel w) as [ch|]; [|done].
    rewrite Hopen. apply close_own_channel.
  - apply (channel_invariant_frame w); [|done].
    apply getPortfolioByQuarter_frame.
  - apply (channel_invariant_frame w); [|done].
    apply getLatestPortfolio_frame.
Qed.

Lemma reachable_invariant w : reachable w → channel_invariant w.
Proof.
  induction 1 as [|w w' _ IH Hstep].
  - split; [done|]. split; [done|]. constructor.
  - by apply (step_preserves w).
Qed.

Lemma two_subscribers_reachable : reachable two_subscribers.
Proof.
  apply (reachable_step (subscribeToUpdates 1%nat (Some "Q1 2024") initial)).
  - apply (reachable_step initial); [constructor | apply step_subscribe].
  - apply step_subscribe.
Qed.

(** C9: in every state the singleton can reach, at most one channel is
    open, it is the one [realtimeChannel] points to, and [realtimeChannel]
    is non-null only while the subscriber set is non-empty;
    [subscribeToUpdates] keeps an existing channel and creates one only when
    there is none; an unsubscribe function removes its own callback and no
    other; and once the subscriber set is empty the channel has been
    unsubscribed and [realtimeChannel] is null. *)
Theorem single_channel w :
  reachable w →
  (length (open_channels w) ≤ 1)%nat ∧
  open_channels w =
    match realtimeChannel w with
    | Some ch => [channel_id ch]
    | None => []
    end ∧
  (realtimeChannel w ≠ None → subscribers w ≠ []) ∧
  (∀ callback quarter ch,
     realtimeChannel w = Some ch →
     realtimeChannel (subscribeToUpdates callback quarter w) = Some ch ∧
     open_channels (subscribeToUpdates callback quarter w) = open_channels w ∧
     channels_created (subscribeToUpdates callback quarter w)
       = channels_created w) ∧
  (∀ callback quarter,
     realtimeChannel w = None →
     ∃ ch, realtimeChannel (subscribeToUpdates callback quarter w) = Some ch ∧
           handler_quarter ch = quarter ∧
           open_channels (subscribeToUpdates callback quarter w)
             = [channel_id ch]) ∧
  (∀ callback other,
     other ∈ subscribers (unsubscribe callback w)
       ↔ other ∈ subscribers w ∧ other ≠ callback) ∧
  (∀ callback,
     subscribers (unsubscribe callback w) = [] →
     realtimeChannel (unsubscribe callback w) = None ∧
     open_channels (unsubscribe callback w) = []).
Proof.
  intros Hreach.
  destruct (reachable_invariant w Hreach) as (Hopen & Hheld & Hnodup).
  split; [rewrite Hopen; destruct (realtimeChannel w); simpl; lia|].
  split; [exact Hopen|]. split; [exact Hheld|].
  split; [|split; [|split]].
  - intros cb quarter ch Hch. unfold subscribeToUpdates. rewrite Hch. done.
  - intros cb quarter Hnone. unfold subscribeToUpdates.
    rewrite Hnone in Hopen |- *. rewrite Hopen. eexists. simpl. done.
  - intros cb other.
    assert (Hsubs : subscribers (unsubscribe cb w)
                    = set_delete cb (subscribers w)).
    { unfold unsubscribe. destruct (realtimeChannel w); [|done].
      by case_bool_decide. }
    rewrite Hsubs. apply elem_of_set_delete.
  - intros cb. unfold unsubscribe.
    destruct (realtimeChannel w) as [ch|] eqn:Hch.
    + case_bool_decide as Hlast; simpl.
      * intros _. by rewrite Hopen, close_own_channel.
      * intros Hnil. destruct Hlast. unfold set_size. by rewrite Hnil.
    + simpl. by rewrite Hopen.
Qed.

Lemma single_channel_witness :
  open_channels two_subscribers = [0%nat] ∧
  subscribers (unsubscribe 1%nat two_subscribers) = [2%nat] ∧
  realtimeChannel (unsubscribe 2%nat (unsubscribe 1%nat two_subscribers))
    = None.
Proof.
  destruct (single_channel two_subscribers two_subscribers_reachable)
    as (_ & Hopen & _).
  split; [exact Hopen|].
  split; reflexivity.
Defined.

End ChannelFacts.

(** ** Change notifications and the subscribers' views *)

Module UpdateFacts.
Import Js PortfolioService UsePortfolioData Vocabulary Samples.
Import RetryFacts ChannelFacts.

Lemma on_update_idemp now updatedData s :
  on_update now updatedData (on_update now updatedData s)
    = on_update now updatedData s.
Proof. done. Qed.

(** What the [forEach] over the subscribers leaves in each hook. *)
Lemma broadcast_lookup now updatedData subs : ∀ hooks cb,
  foldl (λ views subscriber, call now subscriber updatedData views) hooks subs
    !! cb
  = if bool_decide (cb ∈ subs)
    then on_update now updatedData <$> hooks !! cb
    else hooks !! cb.
Proof.
  induction subs as [|s subs IH]; intros hooks cb; cbn [foldl].
  - by rewrite bool_decide_eq_false_2 by apply not_elem_of_nil.
  - rewrite IH. unfold call. rewrite lookup_alter.
    destruct (decide (s = cb)) as [-> | Hne].
    + rewrite (bool_decide_eq_true_2 (cb ∈ cb :: subs)) by left.
      destruct (hooks !! cb) as [v|]; simpl; by case_bool_decide.
    + destruct (bool_decide_reflect (cb ∈ subs)) as [Hin|Hin].
      * by rewrite bool_decide_eq_true_2 by (by right).
      * rewrite bool_decide_eq_false_2; [done|].
        rewrite elem_of_cons. intros [-> | ?]; done.
Qed.

Lemma refetch_frame ch latest select w :
  subscribers (refetch ch latest select w).2 = subscribers w.
Proof.
  unfold refetch. destruct (given (handler_quarter ch)).
  - apply getPortfolioByQuarter_frame.
  - apply getLatestPortfolio_frame.
Qed.

Lemma notify_unfold now ch latest select w hooks :
  realtimeChannel w = Some ch →
  notify (call now) latest select w hooks =
  match (refetch ch latest select w).1 with
  | Ok updatedData =>
      ((refetch ch latest select w).2,
       foldl (λ views subscriber, call now subscriber updatedData views)
             hooks (subscribers w))
  | Throw _ => ((refetch ch latest select w).2, hooks)
  end.
Proof.
  intros Hch. unfold notify, on_postgres_changes. rewrite Hch.
  pose proof (refetch_frame ch latest select w) as Hsubs.
  unfold refetch in *.
  destruct (given (handler_quarter ch)) as [q|].
  - destruct (getPortfolioByQuarter select q w) as [[d|e] w']; simpl in *;
      by rewrite ?Hsubs.
  - destruct (getLatestPortfolio latest select w) as [[d|e] w']; simpl in *;
      by rewrite ?Hsubs.
Qed.




End UpdateFacts.

(** * Further properties *)

(** ** Last location: round trips, frame, redirect *)

Module LocationFacts.
Import SessionManager Samples SessionManagerFacts.

Lemma store_then_get b1 b2 path ls :
  has_window b1 = true → setItem_throws b1 = false →
  path ≠ "/" → path ≠ "/auth/callback" →
  has_window b2 = true → now b2 - now b1 ≤ SESSION_TIMEOUT →
  getStoredLocation b2 (storeLocation b1 path ls)
    = (Some path, storeLocation b1 path ls).
Proof.
  intros Hw1 Hs1 Hroot Hcb Hw2 Hage.
  rewrite storeLocation_stores by done.
  unfold getStoredLocation. rewrite Hw2, lookup_insert_eq. simpl.
  by rewrite bool_decide_eq_false_2 by lia.
Qed.

(** X1: a path other than ['/'] and ['/auth/callback'], stored in a browser
    whose storage accepts the write, is read back unchanged by
    [getStoredLocation] at any time up to 24 hours later, and reading leaves
    the storage as it was. *)
Theorem stored_location_round_trip b1 b2 path ls :
  has_window b1 = true → setItem_throws b1 = false →
  path ≠ "/" → path ≠ "/auth/callback" →
  has_window b2 = true → now b2 - now b1 ≤ SESSION_TIMEOUT →
  getStoredLocation b2 (storeLocation b1 path ls)
    = (Some path, storeLocation b1 path ls).
Proof.
  intros Hw1 Hs1 Hroot Hcb Hw2 Hage. by apply store_then_get.
Qed.

Lemma stored_location_round_trip_witness :
  getStoredLocation (tab 5000) (storeLocation (tab 1000) "/admin" ∅)
    = (Some "/admin", storeLocation (tab 1000) "/admin" ∅).
Proof.
  apply (stored_location_round_trip (tab 1000) (tab 5000) "/admin" ∅);
    try reflexivity; discriminate.
Defined.

(** X2: once a read has found the entry older than 24 hours, the entry is
    gone for good: that read and every later one, whatever the clock then
    shows, return null, and nothing is left under the location key. *)
Theorem expired_location_stays_cleared b1 b2 ls entry :
  has_window b1 = true →
  ls !! LOCATION_KEY = Some (SessionJson entry) →
  now b1 - timestamp entry > SESSION_TIMEOUT →
  let ls' := (getStoredLocation b1 ls).2 in
  (getStoredLocation b1 ls).1 = None ∧
  ls' !! LOCATION_KEY = None ∧
  getStoredLocation b2 ls' = (None, ls').
Proof.
  intros Hw Hentry Hage ls'. subst ls'.
  assert (Hfirst : getStoredLocation b1 ls = (None, delete LOCATION_KEY ls)).
  { unfold getStoredLocation, clearStoredLocation.
    rewrite Hw, Hentry. simpl. by rewrite bool_decide_eq_true_2 by lia. }
  rewrite Hfirst. simpl.
  split; [done|]. split; [apply lookup_delete_eq|].
  unfold getStoredLocation. rewrite lookup_delete_eq. simpl.
  by destruct (has_window b2).
Qed.

Lemma expired_location_stays_cleared_witness :
  let stored := storeLocation (tab 0) "/backtest" ∅ in
  getStoredLocation (tab 10)
      (getStoredLocation (tab 90000000) stored).2
    = (None, (getStoredLocation (tab 90000000) stored).2).
Proof.
  intros stored.
  assert (Hage : now (tab 90000000) - 0 > SESSION_TIMEOUT)
    by (simpl; unfold SESSION_TIMEOUT; lia).
  destruct (expired_location_stays_cleared (tab 90000000) (tab 10) stored
              (mkSessionState (Some "/backtest") 0 None) eq_refl eq_refl Hage)
    as (_ & _ & Hlater).
  exact Hlater.
Defined.

(** X3: as long as the cell under the location key is absent or was
    written by [storeLocation], [getRedirectPath] never returns the empty
    string; what it returns is either the default ['/momentum'] or the last
    location of the stored entry, which is then not older than 24 hours.
    (Of a cell holding other text nothing is said.) *)
Theorem redirect_path_is_usable b ls :
  (ls !! LOCATION_KEY = None
   ∨ ∃ entry, ls !! LOCATION_KEY = Some (SessionJson entry)) →
  let target := (getRedirectPath b ls).1 in
  target ≠ "" ∧
  (target = "/momentum" ∨
   ∃ entry, ls !! LOCATION_KEY = Some (SessionJson entry) ∧
            lastLocation entry = Some target ∧
            now b - timestamp entry ≤ SESSION_TIMEOUT).
Proof.
  intros Hcell.
  unfold getRedirectPath, getStoredLocation, getDefaultRedirectPath.
  destruct (has_window b); simpl; [|by split; [|left]].
  destruct Hcell as [-> | [entry Hentry]]; simpl; [by split; [|left]|].
  rewrite Hentry. simpl.
  case_bool_decide as Hage; simpl; [by split; [|left]|].
  destruct (lastLocation entry) as [p|] eqn:Hp; [|by split; [|left]].
  case_bool_decide as Hempty; simpl; [by split; [|left]|].
  split; [done|]. right. exists entry. split; [done|]. split; [done|]. lia.
Qed.

Lemma redirect_path_is_usable_witness :
  (getRedirectPath (tab 20) (storeLocation (tab 10) "" ∅)).1 = "/momentum".
Proof.
  destruct (redirect_path_is_usable (tab 20) (storeLocation (tab 10) "" ∅))
    as [Hne [Hdefault | (entry & Hcell & Hlast & _)]].
  - right. eexists. reflexivity.
  - exact Hdefault.
  - reflexivity.
Defined.

(** X4: the location operations touch the location key only: any other key
    of the local storage, the session-metadata key among them, reads the
    same after [storeLocation], [getStoredLocation] and
    [clearStoredLocation]. *)
Theorem location_operations_frame b path ls key :
  key ≠ LOCATION_KEY →
  storeLocation b path ls !! key = ls !! key ∧
  (getStoredLocation b ls).2 !! key = ls !! key ∧
  clearStoredLocation b ls !! key = ls !! key.
Proof.
  intros Hkey.
  assert (Hclear : clearStoredLocation b ls !! key = ls !! key).
  { unfold clearStoredLocation. destruct (has_window b); simpl; [|done].
    by rewrite lookup_delete_ne. }
  split; [|split; [|exact Hclear]].
  - unfold storeLocation.
    destruct (has_window b); simpl; [|done].
    destruct (_ || _); [done|].
    destruct (setItem_throws b); [done|]. by rewrite lookup_insert_ne.
  - unfold getStoredLocation.
    destruct (has_window b) eqn:Hw; simpl; [|done].
    destruct (falsy _); [done|].
    destruct (_ ≫= _) as [entry|]; [|done].
    case_bool_decide; [|done]. simpl.
    unfold clearStoredLocation in *. by rewrite Hw in *.
Qed.

Lemma location_operations_frame_witness :
  storeLocation (tab 7) "/admin" {[ STORAGE_KEY := RawText "{}" ]}
    !! STORAGE_KEY = Some (RawText "{}").
Proof.
  destruct (location_operations_frame (tab 7) "/admin"
              {[ STORAGE_KEY := RawText "{}" ]} STORAGE_KEY)
    as (Hstore & _); [discriminate|].
  rewrite Hstore. reflexivity.
Defined.

(** X5: every path that [shouldStorePath] accepts passes [storeLocation]'s
    own guard: stored in a browser that accepts the write, it is the path
    read back within the next 24 hours. *)
Theorem accepted_path_is_restored b1 b2 path ls :
  shouldStorePath path = true →
  has_window b1 = true → setItem_throws b1 = false →
  has_window b2 = true → now b2 - now b1 ≤ SESSION_TIMEOUT →
  (getStoredLocation b2 (storeLocation b1 path ls)).1 = Some path.
Proof.
  intros Hshould Hw1 Hs1 Hw2 Hage.
  unfold shouldStorePath, Js.array_includes, excludedPaths in Hshould.
  apply andb_true_iff in Hshould as [Hnotin _].
  apply negb_true_iff, bool_decide_eq_false in Hnotin.
  rewrite store_then_get; [done|done|done| | |done|done].
  - intros ->. apply Hnotin. set_solver.
  - intros ->. apply Hnotin. set_solver.
Qed.

Lemma accepted_path_is_restored_witness :
  (getStoredLocation (tab 2000) (storeLocation (tab 1000) "/momentum" ∅)).1
    = Some "/momentum".
Proof.
  apply (accepted_path_is_restored (tab 1000) (tab 2000) "/momentum" ∅);
    try reflexivity.
  discriminate.
Defined.

(** X6: the last write wins: a second accepted [storeLocation] replaces
    the first entry altogether, as if the first call had not happened, and
    the path read back is the second one. *)
Theorem last_stored_location_wins b1 b2 b3 path1 path2 ls :
  has_window b2 = true → setItem_throws b2 = false →
  path2 ≠ "/" → path2 ≠ "/auth/callback" →
  has_window b3 = true → now b3 - now b2 ≤ SESSION_TIMEOUT →
  storeLocation b2 path2 (storeLocation b1 path1 ls)
    = storeLocation b2 path2 ls ∧
  (getStoredLocation b3 (storeLocation b2 path2 (storeLocation b1 path1 ls))).1
    = Some path2.
Proof.
  intros Hw2 Hs2 Hroot Hcb Hw3 Hage.
  assert (Hsame : storeLocation b2 path2 (storeLocation b1 path1 ls)
                  = storeLocation b2 path2 ls).
  { rewrite !(storeLocation_stores b2) by done.
    unfold storeLocation.
    destruct (negb (has_window b1)); [done|].
    destruct (_ || _); [done|].
    destruct (setItem_throws b1); [done|]. apply insert_insert_eq. }
  split; [exact Hsame|].
  by rewrite Hsame, store_then_get.
Qed.

Lemma last_stored_location_wins_witness :
  (getStoredLocation (tab 30)
     (storeLocation (tab 20) "/admin" (storeLocation (tab 10) "/backtest" ∅))).1
    = Some "/admin".
Proof.
  destruct (last_stored_location_wins (tab 10) (tab 20) (tab 30)
              "/backtest" "/admin" ∅ eq_refl eq_refl) as [_ Hread];
    [discriminate | discriminate | reflexivity | discriminate | exact Hread].
Defined.

End LocationFacts.

(** ** The retry loop against an arbitrary backend *)

Module RetryBounds.
Import Js PortfolioService Vocabulary Vocabulary2 Samples Samples2 RetryFacts.

(** The shape of every run: some number of retries within the budget left,
    their delays, and the counter afterwards. *)
Lemma run_shape select quarter : ∀ w,
  let run := getPortfolioByQuarter select quarter w in
  ∃ retries,
    fetches run.2 = S (fetches w + retries) ∧
    (retries ≤ maxRetries - connectionRetries w)%nat ∧
    slept run.2 = slept w ++ backoff_delays (connectionRetries w) retries ∧
    connectionRetries run.2 =
      match run.1 with
      | Ok _ => 0%nat
      | Throw _ => (connectionRetries w + retries)%nat
      end.
Proof.
  intros w. pose (m := (maxRetries - connectionRetries w)%nat).
  assert (Hm : (maxRetries - connectionRetries w ≤ m)%nat) by (unfold m; lia).
  clearbody m. revert w Hm.
  induction m as [|m IH]; intros w Hm;
    rewrite getPortfolioByQuarter_unfold;
    (assert (Hstop : ∀ e,
       let run := (Throw e : Outcome (list PortfolioConstituent), answered w) in
       ∃ retries,
         fetches run.2 = S (fetches w + retries) ∧
         (retries ≤ maxRetries - connectionRetries w)%nat ∧
         slept run.2 = slept w ++ backoff_delays (connectionRetries w) retries ∧
         connectionRetries run.2 = (connectionRetries w + retries)%nat);
     [intros e; exists 0%nat; simpl;
      rewrite app_nil_r, !Nat.add_0_r; repeat split; lia|]);
    (destruct (error (select quarter (fetches w))) as [e|];
     [|exists 0%nat; simpl; rewrite app_nil_r, Nat.add_0_r;
       repeat split; lia]).
  - rewrite bool_decide_eq_false_2 by lia. exact (Hstop e).
  - destruct (bool_decide (connectionRetries w < maxRetries)%nat) eqn:Hlt;
      simpl; [|exact (Hstop e)].
    apply bool_decide_eq_true_1 in Hlt.
    destruct (looks_like_connection_issue e); [|exact (Hstop e)].
    destruct (IH (back_off (answered w)))
      as (retries & Hfetches & Hbound & Hslept & Hcounter);
      [change (connectionRetries (back_off (answered w)))
         with (S (connectionRetries w)); lia|].
    change (connectionRetries (back_off (answered w)))
      with (S (connectionRetries w)) in Hbound, Hslept, Hcounter.
    change (fetches (back_off (answered w))) with (S (fetches w)) in Hfetches.
    change (slept (back_off (answered w)))
      with (slept w ++ [retryDelay * Z.of_nat (S (connectionRetries w))])
      in Hslept.
    exists (S retries).
    split; [rewrite Hfetches; lia|]. split; [lia|].
    split.
    + rewrite Hslept, backoff_delays_S, <- app_assoc. done.
    + rewrite Hcounter.
      destruct (getPortfolioByQuarter select quarter (back_off (answered w))).1;
        lia.
Qed.

Lemma total_wait_app l k : total_wait (l ++ k) = total_wait l + total_wait k.
Proof.
  unfold total_wait. induction l as [|d l IH]; simpl; [done|].
  rewrite IH. lia.
Qed.

Lemma backoff_total c retries :
  (retries ≤ maxRetries - c)%nat →
  total_wait (backoff_delays c retries) ≤ 6000.
Proof.
  unfold maxRetries. intros Hbound.
  destruct c as [|[|[|c]]];
    destruct retries as [|[|[|[|retries]]]]; try lia;
    vm_compute; discriminate.
Qed.

Lemma getLatestPortfolio_counter latest select w :
  (connectionRetries w ≤ maxRetries)%nat →
  (connectionRetries (getLatestPortfolio latest select w).2 ≤ maxRetries)%nat.
Proof.
  intros Hw. unfold getLatestPortfolio.
  destruct (error latest); [done|].
  destruct (data latest) as [[|q rest]|]; [done| |done].
  destruct (run_shape select q w) as (r & _ & Hbound & _ & Hcounter).
  destruct (getPortfolioByQuarter select q w) as [[d|e] w']; simpl in *; lia.
Qed.

(** X9: in every state the singleton can reach, the retry counter is at
    most 3. *)
Theorem retry_counter_bounded w :
  reachable w → (connectionRetries w ≤ maxRetries)%nat.
Proof.
  induction 1 as [|w w' _ IH Hstep]; [unfold maxRetries; simpl; lia|].
  destruct Hstep as [cb quarter w | cb w | w | select quarter w | latest select w].
  - unfold subscribeToUpdates. by destruct (realtimeChannel w).
  - unfold unsubscribe. destruct (realtimeChannel w); [|done].
    by case_bool_decide.
  - done.
  - destruct (run_shape select quarter w) as (r & _ & Hbound & _ & Hcounter).
    rewrite Hcounter.
    destruct (getPortfolioByQuarter select quarter w).1; lia.
  - by apply getLatestPortfolio_counter.
Qed.

Lemma retry_counter_bounded_witness :
  (connectionRetries (getPortfolioByQuarter down "Q1 2024" initial).2 ≤ 3)%nat.
Proof.
  apply (retry_counter_bounded (getPortfolioByQuarter down "Q1 2024" initial).2).
  apply (reachable_step initial); [constructor | apply step_fetch].
Defined.

Lemma recovers_after k : ∀ select quarter w,
  (k ≤ maxRetries - connectionRetries w)%nat →
  fails_then_recovers select quarter w k →
  getPortfolioByQuarter select quarter w =
    (Ok (default [] (data (select quarter (fetches w + k)%nat))),
     mkWorld (realtimeChannel w) (subscribers w) 0 (S (fetches w + k))
             (slept w ++ backoff_delays (connectionRetries w) k)
             (open_channels w) (channels_created w)).
Proof.
  induction k as [|k IH]; intros select quarter w Hk [Hfails Hok].
  - rewrite Nat.add_0_r in *. rewrite getPortfolioByQuarter_unfold, Hok.
    destruct w; simpl. by rewrite app_nil_r.
  - destruct (Hfails 0%nat) as (e & He & Hmsg); [lia|].
    rewrite Nat.add_0_r in He.
    rewrite getPortfolioByQuarter_unfold, He, Hmsg.
    rewrite bool_decide_eq_true_2 by lia. simpl.
    rewrite (IH select quarter (back_off (answered w))).
    + cbn [back_off answered realtimeChannel subscribers connectionRetries
           fetches slept open_channels channels_created].
      rewrite backoff_delays_S, <- app_assoc.
      replace (S (fetches w) + k)%nat with (fetches w + S k)%nat by lia.
      done.
    + change (connectionRetries (back_off (answered w)))
        with (S (connectionRetries w)). lia.
    + split; change (fetches (back_off (answered w))) with (S (fetches w)).
      * intros i Hi.
        replace (S (fetches w) + i)%nat with (fetches w + S i)%nat by lia.
        apply Hfails. lia.
      * replace (S (fetches w) + k)%nat with (fetches w + S k)%nat by lia.
        done.
Qed.

End RetryBounds.

(** ** The quarter aggregation: counting and order *)

Module AggregationOrder.
Import Js PortfolioService Vocabulary Vocabulary2 Samples AggregationFacts.

Section Counting.
Context {number : Type} `{JsNumber number}.
Implicit Types (rows : list (SummaryRow number))
               (m : list (string * Totals number)).

Lemma map_set_count k (v : Totals number) m :
  (sum_list (t_total_stocks ∘ snd <$> map_set k v m)
   + from_option t_total_stocks 0 (map_get k m)
   = sum_list (t_total_stocks ∘ snd <$> m) + t_total_stocks v)%nat.
Proof.
  induction m as [|[k' v'] m IH]; cbn [map_set map_get].
  - simpl. lia.
  - destruct (bool_decide_reflect (k' = k)) as [Hk|Hk];
      rewrite !fmap_cons; simpl in *; lia.
Qed.

Lemma accumulate_count m r :
  sum_list (t_total_stocks ∘ snd <$> accumulate m r)
    = S (sum_list (t_total_stocks ∘ snd <$> m)).
Proof.
  unfold accumulate.
  pose proof (map_set_count (quarter r)
    {| t_total_stocks :=
         t_total_stocks
           match map_get (quarter r) m with
           | Some t => t
           | None => mkTotals 0 num_zero num_zero
           end + 1;
       t_total_returns :=
         num_add (t_total_returns
           match map_get (quarter r) m with
           | Some t => t
           | None => mkTotals 0 num_zero num_zero
           end) (quarterly_returns r);
       t_total_weight :=
         num_add (t_total_weight
           match map_get (quarter r) m with
           | Some t => t
           | None => mkTotals 0 num_zero num_zero
           end) (weight r) |} m) as Hset.
  destruct (map_get (quarter r) m) as [t|]; simpl in *; lia.
Qed.

Lemma foldl_accumulate_count rows : ∀ m,
  sum_list (t_total_stocks ∘ snd <$> foldl accumulate m rows)
    = (sum_list (t_total_stocks ∘ snd <$> m) + length rows)%nat.
Proof.
  induction rows as [|r rows IH]; intros m; simpl; [lia|].
  rewrite IH, accumulate_count. lia.
Qed.

Lemma accumulate_keys m r :
  (accumulate m r).*1 = set_add (quarter r) m.*1.
Proof. unfold accumulate. by rewrite map_set_keys. Qed.

Lemma foldl_accumulate_keys rows : ∀ m,
  (foldl accumulate m rows).*1
    = foldl (λ seen q, set_add q seen) m.*1 (quarter <$> rows).
Proof.
  induction rows as [|r rows IH]; intros m; simpl; [done|].
  by rewrite IH, accumulate_keys.
Qed.

Lemma foldl_set_add_head (l : list string) : ∀ a seen,
  ∃ seen', foldl (λ seen q, set_add q seen) (a :: seen) l = a :: seen'.
Proof.
  induction l as [|q l IH]; intros a seen; simpl; [by eexists|].
  unfold set_add at 2. case_bool_decide; [apply IH|].
  rewrite <- app_comm_cons. apply IH.
Qed.

Lemma foldl_set_add_length (l : list string) : ∀ seen,
  (length (foldl (λ seen q, set_add q seen) seen l)
   ≤ length seen + length l)%nat.
Proof.
  induction l as [|q l IH]; intros seen; simpl; [lia|].
  etrans; [apply IH|]. unfold set_add. case_bool_decide; [lia|].
  rewrite length_app. simpl. lia.
Qed.

Lemma totals_to_summary m :
  total_stocks <$> (to_summary <$> m) = t_total_stocks ∘ snd <$> m.
Proof.
  rewrite <- list_fmap_compose. apply list_fmap_ext. by intros _ [q t] _.
Qed.

(** X12: every input row is counted in exactly one summary: the
    [total_stocks] of the summaries that [getQuartersSummary] returns add up
    to the number of input rows. *)
Theorem getQuartersSummary_counts_every_row rows :
  ∃ summaries,
    getQuartersSummary (mkReply (Some rows) None) = Ok summaries ∧
    sum_list (total_stocks <$> summaries) = length rows.
Proof.
  exists (to_summary <$> group_by_quarter rows).
  split; [apply getQuartersSummary_ok|].
  rewrite totals_to_summary. unfold group_by_quarter.
  by rewrite foldl_accumulate_count.
Qed.

Lemma summaries_head rows r rest :
  rows = r :: rest →
  ∃ s ss, to_summary <$> group_by_quarter rows = s :: ss ∧
          qs_quarter s = quarter r.
Proof.
  intros ->.
  pose proof (summary_quarters (group_by_quarter (r :: rest))) as Hkeys.
  unfold group_by_quarter in Hkeys at 2.
  rewrite foldl_accumulate_keys in Hkeys. simpl in Hkeys.
  destruct (foldl_set_add_head (quarter <$> rest) (quarter r) [])
    as [seen' Hseen].
  unfold set_add in Hkeys at 2. simpl in Hkeys.
  change (list_fmap _ _ quarter rest) with (quarter <$> rest) in Hkeys.
  rewrite Hseen in Hkeys.
  destruct (to_summary <$> group_by_quarter (r :: rest)) as [|s ss];
    [done|].
  exists s, ss. split; [done|]. simpl in Hkeys. by injection Hkeys.
Qed.

(** X13: the summaries come in the order in which their quarters first
    occur in the input: the first summary is that of the first row's
    quarter; there are no more summaries than rows, and none exactly when
    there is no row. *)
Theorem getQuartersSummary_order rows :
  ∃ summaries,
    getQuartersSummary (mkReply (Some rows) None) = Ok summaries ∧
    qs_quarter <$> summaries = first_occurrences (quarter <$> rows) ∧
    (∀ r rest, rows = r :: rest →
       qs_quarter <$> head summaries = Some (quarter r)) ∧
    (length summaries ≤ length rows)%nat ∧
    (summaries = [] ↔ rows = []).
Proof.
  exists (to_summary <$> group_by_quarter rows).
  split; [apply getQuartersSummary_ok|].
  assert (Hkeys : qs_quarter <$> (to_summary <$> group_by_quarter rows)
                  = first_occurrences (quarter <$> rows)).
  { rewrite summary_quarters. unfold group_by_quarter, first_occurrences.
    by rewrite foldl_accumulate_keys. }
  assert (Hhead : ∀ r rest, rows = r :: rest →
            ∃ seen', qs_quarter <$> (to_summary <$> group_by_quarter rows)
                     = quarter r :: seen').
  { intros r rest ->. rewrite Hkeys. unfold first_occurrences. simpl.
    apply foldl_set_add_head. }
  split; [exact Hkeys|]. split; [|split].
  - intros r rest Hrows. destruct (Hhead r rest Hrows) as [seen' Hq].
    destruct (to_summary <$> group_by_quarter rows) as [|s ss]; [done|].
    simpl in *. by injection Hq as ->.
  - rewrite <- (length_fmap qs_quarter), Hkeys, <- (length_fmap quarter rows).
    apply (foldl_set_add_length _ []).
  - split.
    + intros Hnil. destruct rows as [|r rest]; [done|].
      destruct (Hhead r rest eq_refl) as [seen' Hq].
      rewrite Hnil in Hq. done.
    + by intros ->.
Qed.

End Counting.

End AggregationOrder.

(** ** Period labels and the historical series *)

Module PerformanceFacts.
Import Js PortfolioService Performance Vocabulary Vocabulary2 Samples.
Import AggregationFacts AggregationOrder.

Lemma split_space_spaceless s : spaceless s = true → split_space s = [s].
Proof.
  induction s as [|c s IH]; simpl; [done|].
  intros [Hc Hs]%andb_true_iff. apply negb_true_iff in Hc.
  by rewrite Hc, IH.
Qed.

Lemma split_space_app a b :
  spaceless a = true →
  split_space (a +:+ " " +:+ b) = a :: split_space b.
Proof.
  induction a as [|c a IH]; simpl; [done|].
  intros [Hc Ha]%andb_true_iff. apply negb_true_iff in Hc.
  rewrite Hc. cbn [String.append] in IH. by rewrite IH.
Qed.

Lemma own_key_spaceless q months :
  quarterMap_get q = Own months → spaceless q = true.
Proof.
  unfold quarterMap_get. intros Hq.
  destruct (bool_decide_reflect (q = "Q1")) as [-> | _]; [done|].
  destruct (bool_decide_reflect (q = "Q2")) as [-> | _]; [done|].
  destruct (bool_decide_reflect (q = "Q3")) as [-> | _]; [done|].
  destruct (bool_decide_reflect (q = "Q4")) as [-> | _]; [done|].
  by destruct (bool_decide (q ∈ Object_prototype_names)).
Qed.

(** X15: for a label made of one of the keys [Q1] .. [Q4], a space and a
    year without spaces, [quarterToPeriod] gives that key's months, a space
    and the year; anything after a second space is ignored; and for the key
    alone, without a year, the period ends in the word "undefined". *)
Theorem quarterToPeriod_well_formed q months year rest :
  quarterMap_get q = Own months →
  spaceless year = true →
  quarterToPeriod (q +:+ " " +:+ year) = Some (months +:+ " " +:+ year) ∧
  quarterToPeriod (q +:+ " " +:+ year +:+ " " +:+ rest)
    = Some (months +:+ " " +:+ year) ∧
  quarterToPeriod q = Some (months +:+ " undefined").
Proof.
  intros Hq Hyear. pose proof (own_key_spaceless q months Hq) as Hspace.
  unfold quarterToPeriod.
  rewrite !split_space_app by done.
  rewrite (split_space_spaceless year), (split_space_spaceless q) by done.
  simpl. by rewrite Hq.
Qed.

Lemma quarterToPeriod_well_formed_witness :
  quarterToPeriod "Q3 2024" = Some "Jul - Sep 2024" ∧
  quarterToPeriod "Q3" = Some "Jul - Sep undefined".
Proof.
  destruct (quarterToPeriod_well_formed "Q3" "Jul - Sep" "2024" ""
              eq_refl eq_refl) as (Hfull & _ & Halone).
  split; [exact Hfull | exact Halone].
Defined.

(** X16: a label whose first piece is none of [Q1] .. [Q4] (and no member
    name of [Object.prototype]) is not refused: its period is the word
    "undefined" followed by the year. *)
Theorem quarterToPeriod_unknown_quarter q year :
  quarterMap_get q = Undefined →
  spaceless q = true → spaceless year = true →
  quarterToPeriod (q +:+ " " +:+ year) = Some ("undefined " +:+ year).
Proof.
  intros Hq Hspace Hyear. unfold quarterToPeriod.
  rewrite split_space_app, (split_space_spaceless year) by done.
  simpl. by rewrite Hq.
Qed.

Lemma quarterToPeriod_unknown_quarter_witness :
  quarterToPeriod "H1 2024" = Some "undefined 2024".
Proof.
  apply (quarterToPeriod_unknown_quarter "H1" "2024"); reflexivity.
Defined.

Section Series.
Context {number : Type} `{JsNumber number}.

Lemma point_quarters (summaries : list (QuarterSummary number)) :
  hp_quarter <$> (to_point <$> summaries) = qs_quarter <$> summaries.
Proof. rewrite <- list_fmap_compose. by apply list_fmap_ext. Qed.

(** X17: [getHistoricalPerformance] throws the error of the summary query;
    otherwise it returns one point per distinct quarter of the input rows,
    in the order of first occurrence, each with the row count of its
    quarter and with the period label of its quarter. *)
Theorem getHistoricalPerformance_series (rows : list (SummaryRow number)) :
  (∀ e d, getHistoricalPerformance (mkReply d (Some e)) = Throw e) ∧
  ∃ points,
    getHistoricalPerformance (mkReply (Some rows) None) = Ok points ∧
    hp_quarter <$> points = first_occurrences (quarter <$> rows) ∧
    ∀ p, p ∈ points →
      hp_total_stocks p = length (rows_of (hp_quarter p) rows) ∧
      period p = quarterToPeriod (hp_quarter p).
Proof.
  split; [done|].
  destruct (getQuartersSummary_ok rows) as [Hsum _].
  destruct (group_by_quarter_totals rows) as (Hnodup & _ & Hget).
  exists (to_point <$> (to_summary <$> group_by_quarter rows)).
  split; [unfold getHistoricalPerformance; by rewrite Hsum|].
  split.
  - rewrite point_quarters, summary_quarters.
    unfold group_by_quarter, first_occurrences.
    by rewrite foldl_accumulate_keys.
  - intros p (s & -> & ([q t] & -> & Hin)%list_elem_of_fmap)%list_elem_of_fmap.
    apply (map_get_elem_of _ _ _ Hnodup), Hget in Hin. by subst t.
Qed.

End Series.

End PerformanceFacts.

(** ** Subscriptions: round trips, late subscribers, reconnection *)

Module SubscriptionFacts.
Import Js PortfolioService UsePortfolioData Vocabulary Samples.
Import RetryFacts ChannelFacts UpdateFacts.

Lemma set_delete_add_fresh (x : Callback) s :
  x ∉ s → set_delete x (set_add x s) = s.
Proof.
  intros Hfresh. unfold set_add, set_delete.
  rewrite bool_decide_eq_false_2 by done.
  rewrite filter_app, filter_cons_False, filter_nil, app_nil_r by auto.
  induction s as [|y s IH]; [done|].
  apply not_elem_of_cons in Hfresh as [Hne Hfresh].
  rewrite filter_cons_True by auto. by rewrite IH.
Qed.

Lemma unsubscribe_subscribers cb w :
  subscribers (unsubscribe cb w) = set_delete cb (subscribers w).
Proof.
  unfold unsubscribe. destruct (realtimeChannel w); [|done].
  by case_bool_decide.
Qed.

Lemma subscribe_subscribers cb quarter w :
  subscribers (subscribeToUpdates cb quarter w) = set_add cb (subscribers w).
Proof. unfold subscribeToUpdates. by destruct (realtimeChannel w). Qed.

(** X18: subscribing a callback that was not subscribed and calling the
    returned unsubscribe function restores the subscriber set, in every
    reachable state.  It also restores the channel (the same channel kept,
    or none open), unless the state had subscribers but no channel, as
    after the reconnect timer: then the channel created for the newcomer
    stays open for the others. *)
Theorem subscribe_unsubscribe_round_trip callback quarter w :
  reachable w →
  callback ∉ subscribers w →
  let w' := unsubscribe callback (subscribeToUpdates callback quarter w) in
  subscribers w' = subscribers w ∧
  ((realtimeChannel w = None → subscribers w = []) →
   realtimeChannel w' = realtimeChannel w ∧
   open_channels w' = open_channels w) ∧
  (realtimeChannel w = None → subscribers w ≠ [] →
   ∃ ch, realtimeChannel w' = Some ch ∧ handler_quarter ch = quarter ∧
         open_channels w' = [channel_id ch]).
Proof.
  intros Hreach Hfresh w'.
  destruct (reachable_invariant w Hreach) as (Hopen & Hheld & _).
  assert (Hsubs : subscribers w' = subscribers w).
  { unfold w'. rewrite unsubscribe_subscribers, subscribe_subscribers.
    by apply set_delete_add_fresh. }
  split; [exact Hsubs|].
  unfold w', unsubscribe, subscribeToUpdates in *.
  destruct (realtimeChannel w) as [ch|] eqn:Hch; simpl in *.
  - rewrite set_delete_add_fresh by done.
    rewrite bool_decide_eq_false_2.
    + simpl. split; [done|]. intros Hnone. discriminate Hnone.
    + unfold set_size. intros Hlen%length_zero_iff_nil.
      by apply Hheld.
  - rewrite set_delete_add_fresh by done. rewrite Hopen. simpl. split.
    + intros Hnil. rewrite (Hnil eq_refl). simpl.
      by rewrite close_own_channel.
    + intros _ Hne. rewrite bool_decide_eq_false_2.
      * simpl. by eexists.
      * unfold set_size. by intros Hlen%length_zero_iff_nil.
Qed.

Lemma subscribe_unsubscribe_round_trip_witness :
  let w' := unsubscribe 3%nat
              (subscribeToUpdates 3%nat (Some "Q3 2024") two_subscribers) in
  subscribers w' = [1%nat; 2%nat] ∧
  realtimeChannel w' = realtimeChannel two_subscribers.
Proof.
  intros w'.
  assert (Hfresh : 3%nat ∉ subscribers two_subscribers).
  { simpl. intros Hin. apply elem_of_cons in Hin as [Heq | Hin]; [done|].
    apply elem_of_cons in Hin as [Heq | Hin]; [done|].
    by apply elem_of_nil in Hin. }
  destruct (subscribe_unsubscribe_round_trip 3%nat (Some "Q3 2024")
              two_subscribers two_subscribers_reachable Hfresh)
    as (Hsubs & Hchannel & _).
  split; [exact Hsubs|].
  apply Hchannel. intros Hnone. discriminate Hnone.
Defined.

(** X19: after its unsubscribe function has run, a callback is not called
    any more: no later change notification alters the view of its hook,
    whatever the backend answers. *)
Theorem unsubscribed_hook_is_left_alone now latest select callback w hooks :
  (notify (call now) latest select (unsubscribe callback w) hooks).2
    !! callback
  = hooks !! callback.
Proof.
  destruct (realtimeChannel (unsubscribe callback w)) as [ch|] eqn:Hch.
  - rewrite (notify_unfold now ch) by done.
    destruct (refetch ch latest select (unsubscribe callback w)).1; [|done].
    simpl. rewrite broadcast_lookup, bool_decide_eq_false_2; [done|].
    rewrite unsubscribe_subscribers, elem_of_set_delete. by intros [_ ?].
  - unfold notify. by rewrite Hch.
Qed.

(** X20: the quarter that is refetched is fixed when the channel is
    created.  A callback subscribed while a channel exists is served by
    that channel's handler: on a notification its hook receives the list
    fetched for the channel's quarter, whatever quarter the callback itself
    was subscribed with. *)
Theorem late_subscriber_gets_channel_quarter
    now latest select callback quarter w ch hooks view updatedData :
  realtimeChannel w = Some ch →
  let w1 := subscribeToUpdates callback quarter w in
  (refetch ch latest select w1).1 = Ok updatedData →
  hooks !! callback = Some view →
  realtimeChannel w1 = Some ch ∧
  (notify (call now) latest select w1 hooks).2 !! callback
    = Some (on_update now updatedData view).
Proof.
  intros Hch w1 Hfetch Hview.
  assert (Hch1 : realtimeChannel w1 = Some ch).
  { unfold w1, subscribeToUpdates. by rewrite Hch. }
  split; [exact Hch1|].
  rewrite (notify_unfold now ch) by done. rewrite Hfetch. simpl.
  rewrite broadcast_lookup, bool_decide_eq_true_2, Hview; [done|].
  unfold w1. rewrite subscribe_subscribers. apply elem_of_set_add. by right.
Qed.

Lemma late_subscriber_gets_channel_quarter_witness :
  let hooks : gmap Callback HookState := {[ 2%nat := stale_hook ]} in
  let w1 := subscribeToUpdates 2%nat (Some "Q2 2024") one_subscriber in
  (notify (call 2000) (mkReply None None) emptied w1 hooks).2 !! 2%nat
    = Some (on_update 2000 [] stale_hook).
Proof.
  intros hooks w1.
  destruct (late_subscriber_gets_channel_quarter 2000 (mkReply None None)
              emptied 2%nat (Some "Q2 2024") one_subscriber
              (mkChannel 0 (Some "Q1 2024")) hooks stale_hook []
              eq_refl eq_refl eq_refl) as [_ Hview].
  exact Hview.
Defined.



End SubscriptionFacts.

(** ** The hook's loaders *)

Module LoaderFacts.
Import Js PortfolioService UsePortfolioData Loaders.
Import Vocabulary Vocabulary2 Samples Samples2 AggregationFacts AggregationOrder.

(** X22: the hook picks its default quarter from the first row of the
    summary query, going by the selection at the time [loadQuarters] was
    called.  When the callback closed over no selected quarter and the query
    returns at least one row, [loadQuarters] on the result of
    [getQuartersSummary] selects the quarter of the first row, whatever is
    selected by the time the query settles: a quarter chosen while the query
    was in flight is replaced.  When the callback closed over a selected
    quarter, or the result is empty, the selection found when the query
    settles is kept. *)
Theorem loadQuarters_default_quarter instanceof_Error now captured rows s :
  let loaded :=
    loadQuarters instanceof_Error now captured
                 (getQuartersSummary (mkReply (Some rows) None)) s in
  (given captured = None →
   ∀ r rest, rows = r :: rest → selectedQuarter loaded = Some (quarter r)) ∧
  (∀ q, given captured = Some q →
        selectedQuarter loaded = selectedQuarter s) ∧
  (rows = [] → selectedQuarter loaded = selectedQuarter s).
Proof.
  intros loaded. unfold loaded.
  destruct (getQuartersSummary_ok rows) as [-> _].
  unfold loadQuarters. cbn [selectedQuarter]. split; [|split].
  - intros Hnone r rest Hrows.
    destruct (summaries_head rows r rest Hrows) as (s0 & ss & -> & Hq).
    by rewrite Hnone, Hq.
  - intros q ->. done.
  - intros ->. simpl. by destruct (given captured).
Qed.

Lemma loadQuarters_default_quarter_witness :
  selectedQuarter stale_hook = Some "Q1 2024" ∧
  selectedQuarter
    (loadQuarters never_Error 5000 None
       (getQuartersSummary (mkReply (Some sample_rows) None)) stale_hook)
  = Some "Q2 2024".
Proof.
  split; [reflexivity|].
  destruct (loadQuarters_default_quarter never_Error 5000 None sample_rows
              stale_hook) as (Hdefault & _).
  apply (Hdefault eq_refl _ _ eq_refl).
Defined.

(** X23: freshness is reckoned from the last successful delivery only.
    After a real-time update or a successful [loadPortfolioData] at time
    [now], [checkDataFreshness] reports stale data exactly when more than
    five minutes (300,000 ms) have passed since [now].  After a failed
    [loadPortfolioData] the list and the time of the last fetch are kept,
    so the next check gives the verdict it would have given without the
    load, overwriting the stale flag that the failure had set. *)
Theorem freshness_follows_last_delivery
    instanceof_Error now later fetch quarter s w :
  given (selectedQuarter s) = Some quarter →
  let loaded := (loadPortfolioData instanceof_Error now fetch s w).1 in
  ((checkDataFreshness later (on_update now (portfolioData s) s)).1 = true
     ↔ later - now > 300000) ∧
  (∀ data, (fetch quarter w).1 = Ok data →
     portfolioData loaded = data ∧ loading loaded = false ∧
     ((checkDataFreshness later loaded).1 = true ↔ later - now > 300000)) ∧
  (∀ e, (fetch quarter w).1 = Throw e →
     portfolioData loaded = portfolioData s ∧ loading loaded = false ∧
     isDataStale loaded = true ∧
     (checkDataFreshness later loaded).1 = (checkDataFreshness later s).1 ∧
     isDataStale (checkDataFreshness later loaded).2
       = bool_decide (later - lastFetchTime s > 300000)).
Proof.
  intros Hq loaded. unfold loaded, loadPortfolioData. rewrite Hq.
  split; [|split].
  - unfold checkDataFreshness, DATA_FRESHNESS_THRESHOLD. simpl.
    rewrite bool_decide_eq_true. lia.
  - intros data Hfetch. destruct (fetch quarter w) as [r w'].
    simpl in Hfetch. subst r. simpl. split; [done|]. split; [done|].
    unfold DATA_FRESHNESS_THRESHOLD. rewrite bool_decide_eq_true. lia.
  - intros e Hfetch. destruct (fetch quarter w) as [r w'].
    simpl in Hfetch. subst r. simpl. done.
Qed.

Lemma freshness_follows_last_delivery_witness :
  let fetch := getPortfolioByQuarter recovers in
  let loaded := (loadPortfolioData never_Error 1000 fetch stale_hook initial).1 in
  portfolioData loaded = [one_row] ∧
  (checkDataFreshness 301000 loaded).1 = false ∧
  (checkDataFreshness 301001 loaded).1 = true.
Proof.
  intros fetch loaded.
  split; [|split].
  - destruct (freshness_follows_last_delivery never_Error 1000 301000 fetch
                "Q1 2024" stale_hook initial eq_refl) as (_ & Hok & _).
    apply (Hok [one_row] eq_refl).
  - reflexivity.
  - reflexivity.
Defined.

(** X24: without a selected quarter nothing is fetched.  When the summary
    query returns no rows (or no data) while no quarter is selected,
    [loadQuarters] selects none and leaves the [loading] flag as it was, and
    [loadPortfolioData] after it returns at once, without a query and
    without touching the state: a hook mounted on an empty table keeps
    [loading] at its initial [true]. *)
Theorem empty_table_leaves_hook_loading
    instanceof_Error now now' captured fetch
    (reply : Reply (list (SummaryRow Q))) s w :
  error reply = None →
  data reply = Some [] ∨ data reply = None →
  given (selectedQuarter s) = None →
  let s1 :=
    loadQuarters instanceof_Error now captured (getQuartersSummary reply) s in
  loading s1 = loading s ∧
  given (selectedQuarter s1) = None ∧
  loadPortfolioData instanceof_Error now' fetch s1 w = (s1, w) ∧
  loading (mount None) = true ∧ given (selectedQuarter (mount None)) = None.
Proof.
  intros Herr Hdata Hnone s1.
  assert (Hsum : getQuartersSummary reply = Ok []).
  { unfold getQuartersSummary. rewrite Herr. by destruct Hdata as [-> | ->]. }
  assert (Hsel : given (selectedQuarter s1) = None).
  { unfold s1. rewrite Hsum. simpl. by destruct (given captured). }
  split; [unfold s1; by rewrite Hsum|]. split; [exact Hsel|].
  split; [|done].
  unfold loadPortfolioData. by rewrite Hsel.
Qed.

Lemma empty_table_leaves_hook_loading_witness :
  let s1 := loadQuarters never_Error 10 None
              (getQuartersSummary (mkReply (Some []) None)) (mount None) in
  loading s1 = true ∧
  loadPortfolioData never_Error 20 (getPortfolioByQuarter down) s1 initial
    = (s1, initial).
Proof.
  intros s1.
  destruct (empty_table_leaves_hook_loading never_Error 10 20 None
              (getPortfolioByQuarter down) (mkReply (Some []) None)
              (mount None) initial eq_refl (or_introl eq_refl) eq_refl)
    as (Hloading & _ & Hnofetch & _).
  split; [exact Hloading | exact Hnofetch].
Defined.

End LoaderFacts.

(** ** The two versions of the service *)

Module VersionFacts.
Import Js PortfolioService Vocabulary Samples RetryFacts.

(** X25: the two versions of the service agree wherever the newer one adds
    nothing.  [getQuartersSummary] returns the same outcome in both for every
    reply (the shortcut on empty data changes no result), and
    [getPortfolioByQuarter] returns the same outcome and asks one query in
    both whenever the first reply carries no error or carries one for which
    the retry gate is closed. *)
Theorem versions_agree {number : Type} `{JsNumber number}
    (reply : Reply (list (SummaryRow number))) select quarter w :
  getQuartersSummary reply = NoRetry.getQuartersSummary reply ∧
  ((error (select quarter (fetches w)) = None ∨
    ∃ e, error (select quarter (fetches w)) = Some e ∧
         ((maxRetries ≤ connectionRetries w)%nat
          ∨ looks_like_connection_issue e = false)) →
   (getPortfolioByQuarter select quarter w).1
     = (NoRetry.getPortfolioByQuarter select quarter w).1 ∧
   fetches (getPortfolioByQuarter select quarter w).2
     = fetches (NoRetry.getPortfolioByQuarter select quarter w).2).
Proof.
  split.
  - unfold getQuartersSummary, NoRetry.getQuartersSummary.
    destruct (error reply); [done|].
    by destruct (data reply) as [[|r rows]|].
  - unfold NoRetry.getPortfolioByQuarter. intros [Hok | (e & He & Hgate)].
    + rewrite getPortfolioByQuarter_unfold, Hok. done.
    + rewrite (getPortfolioByQuarter_gate_closed _ _ _ e) by done.
      by rewrite He.
Qed.

Lemma versions_agree_witness :
  (getPortfolioByQuarter refused "Q1 2024" initial).1
    = (NoRetry.getPortfolioByQuarter refused "Q1 2024" initial).1.
Proof.
  destruct (versions_agree (mkReply (Some sample_rows) None)
              refused "Q1 2024" initial) as [_ Hfetch].
  apply Hfetch. right. exists permission_error.
  split; [reflexivity | right; reflexivity].
Defined.

End VersionFacts.

(** ** Overlapping calls on the shared retry counter *)

Module InterleavingFacts.
Import Js PortfolioService EventLoop.
Import Vocabulary Vocabulary2 Vocabulary3 Samples Samples2 Samples3.
Import RetryFacts RetryBounds.

Lemma triangle_mono n m : (n ≤ m)%nat → (triangle n ≤ triangle m)%nat.
Proof. induction 1; simpl; lia. Qed.

Lemma retryable_fails r : retryable_reply r → error r ≠ None.
Proof. by intros (e & -> & _). Qed.

Lemma keeps_failing_no_success ev :
  backend_keeps_failing ev → no_reply_succeeds ev.
Proof.
  intros [Hs Hr]. split; [done|].
  destruct ev; simpl in *; auto using retryable_fails.
Qed.

(** While no reply succeeds the counter never goes down, and it stays
    within the maximum. *)
Lemma fire_counter ev st :
  no_reply_succeeds ev →
  (connectionRetries (service st) ≤ maxRetries)%nat →
  (connectionRetries (service st)
     ≤ connectionRetries (service (fire ev st)))%nat ∧
  (connectionRetries (service (fire ev st)) ≤ maxRetries)%nat.
Proof.
  intros [_ Hev] Hmax. destruct ev as [i q | i | i e0 | i r | i]; simpl.
  - destruct (calls st !! i); simpl; lia.
  - destruct (calls st !! i) as [[q [| |d|o] h s]|]; simpl; lia.
  - destruct (calls st !! i) as [[q [| |d|o] h s]|]; simpl; lia.
  - destruct (calls st !! i) as [[q [| |d|o] h s]|]; simpl; try lia.
    unfold on_reply. simpl in Hev.
    destruct (error r) as [e|]; [|done].
    destruct (bool_decide (connectionRetries (service st) < maxRetries)%nat)
      eqn:Hlt; simpl; [|lia].
    apply bool_decide_eq_true_1 in Hlt.
    destruct (looks_like_connection_issue e); simpl; lia.
  - destruct (calls st !! i) as [[q [| |d|o] h s]|]; simpl; lia.
Qed.

(** An event of one call leaves the records of the others alone. *)
Lemma fire_other ev st i :
  subject ev ≠ i → calls (fire ev st) !! i = calls st !! i.
Proof.
  intros Hne. destruct ev as [j q | j | j e0 | j r | j]; simpl in *.
  - destruct (calls st !! j); simpl; [done|]. by rewrite lookup_insert_ne.
  - destruct (calls st !! j) as [[q [| |d|o] h s]|]; simpl;
      by rewrite ?lookup_insert_ne.
  - destruct (calls st !! j) as [[q [| |d|o] h s]|]; simpl;
      by rewrite ?lookup_insert_ne.
  - destruct (calls st !! j) as [[q [| |d|o] h s]|]; simpl; try done.
    destruct (on_reply r _ _) as [c' w']. simpl. by rewrite lookup_insert_ne.
  - destruct (calls st !! j) as [[q [| |d|o] h s]|]; simpl;
      by rewrite ?lookup_insert_ne.
Qed.

Lemma fire_tracks_other c0 i ev st :
  subject ev ≠ i → no_reply_succeeds ev →
  tracks c0 i st → tracks c0 i (fire ev st).
Proof.
  intros Hne Hev (c & Hc & Hmax & Hlen & Hd & Htot & Hph).
  destruct (fire_counter ev st Hev Hmax) as [Hmono Hmax'].
  pose proof (triangle_mono _ _ Hmono) as Htri.
  exists c. rewrite fire_other by done.
  split; [done|]. split; [done|]. split; [lia|]. split; [|split].
  - intros k d Hk. destruct (Hd k d Hk) as (n & Hn & Hlo & Hhi).
    exists n. split; [done|]. lia.
  - unfold retryDelay in *. lia.
  - destruct (phase c); try done.
    destruct Hph as (Hans & e & Hlast & Ho & Hgate).
    split; [done|]. exists e. split; [done|]. split; [done|].
    intros Hmsg. specialize (Hgate Hmsg). lia.
Qed.

Lemma fire_tracks_own c0 i ev st :
  subject ev = i → no_reply_succeeds ev →
  tracks c0 i st → tracks c0 i (fire ev st).
Proof.
  intros Hsubj Hev (c & Hc & Hmax & Hlen & Hd & Htot & Hph).
  destruct ev as [j q | j | j e0 | j r | j]; simpl in Hsubj; subst j;
    unfold fire; rewrite Hc.
  - by exists c.
  - destruct c as [q [| |d|o] h s]; try by eexists.
    eexists. simpl. rewrite lookup_insert_eq. done.
  - by destruct Hev as [[] _].
  - destruct Hev as [_ Hev].
    destruct c as [q [| |d|o] h s]; try by eexists.
    unfold on_reply, tracks. simpl in Hev.
    cbn [call_quarter answers waited].
    destruct (error r) as [e|] eqn:He; [|done].
    destruct (bool_decide (connectionRetries (service st) < maxRetries)%nat)
      eqn:Hlt; cbn [andb].
    + apply bool_decide_eq_true_1 in Hlt.
      destruct (looks_like_connection_issue e) eqn:Hmsg;
        cbn [calls service]; eexists; rewrite lookup_insert_eq;
        (split; [done|]); simpl in *.
      * split; [lia|]. split; [rewrite length_app; simpl; lia|].
        split; [|split].
        -- intros k d Hk. apply lookup_app_Some in Hk as [Hk | [Hge Hk]].
           ++ destruct (Hd k d Hk) as (n & Hn & Hlo & Hhi).
              exists n. split; [done|]. lia.
           ++ apply list_lookup_singleton_Some in Hk as [Hk0 Hdelay].
              subst d. exists (S (connectionRetries (service st))).
              split; [done|]. lia.
        -- rewrite total_wait_app. unfold total_wait at 2. simpl.
           unfold retryDelay in *. lia.
        -- rewrite !length_app. simpl. lia.
      * split; [done|]. split; [done|]. split; [done|]. split; [done|].
        split; [rewrite length_app; simpl; lia|].
        exists e. rewrite last_snoc. simpl. rewrite He.
        split; [done|]. split; [done|]. intros Hyes. congruence.
    + apply bool_decide_eq_false_1 in Hlt.
      cbn [calls service]. eexists. rewrite lookup_insert_eq.
      split; [done|]. simpl in *.
      split; [done|]. split; [done|]. split; [done|]. split; [done|].
      split; [rewrite length_app; simpl; lia|].
      exists e. rewrite last_snoc. simpl. rewrite He.
      split; [done|]. split; [done|]. intros _. lia.
  - destruct c as [q [| |d|o] h s]; try by eexists.
    eexists. simpl. rewrite lookup_insert_eq. done.
Qed.

Lemma start_tracks i quarter st :
  calls st !! i = None →
  (connectionRetries (service st) ≤ maxRetries)%nat →
  tracks (connectionRetries (service st)) i (fire (Start i quarter) st).
Proof.
  intros Hfresh Hmax. unfold fire. rewrite Hfresh.
  eexists. simpl. rewrite lookup_insert_eq. split; [done|]. simpl.
  split; [done|]. split; [lia|]. split; [|split; [|done]].
  - intros k d Hk. done.
  - unfold total_wait. simpl. lia.
Qed.

Lemma run_tracks c0 i evs : ∀ st,
  Forall no_reply_succeeds evs → tracks c0 i st → tracks c0 i (run evs st).
Proof.
  induction evs as [|ev evs IH]; intros st Hevs Htr; [done|].
  apply Forall_cons in Hevs as [Hev Hevs]. simpl. apply IH; [done|].
  destruct (decide (subject ev = i)).
  - by apply fire_tracks_own.
  - by apply fire_tracks_other.
Qed.

Lemma fire_heard P i ev st :
  replies_with P ev → heard P i st → heard P i (fire ev st).
Proof.
  intros Hev Hheard c'. destruct (decide (subject ev = i)) as [<- | Hne].
  - destruct ev as [j q | j | j e0 | j r | j]; simpl in *.
    + destruct (calls st !! j) eqn:Hc; simpl; [by apply Hheard|].
      rewrite lookup_insert_eq. by intros [= <-].
    + destruct (calls st !! j) as [[q [| |d|o] h s]|] eqn:Hc; simpl;
        try (by apply Hheard).
      rewrite lookup_insert_eq. intros [= <-]. apply (Hheard _ Hc).
    + destruct (calls st !! j) as [[q [| |d|o] h s]|] eqn:Hc; simpl;
        try (by apply Hheard).
      rewrite lookup_insert_eq. intros [= <-]. apply (Hheard _ Hc).
    + destruct (calls st !! j) as [[q [| |d|o] h s]|] eqn:Hc; simpl;
        try (by apply Hheard).
      specialize (Hheard _ Hc). simpl in Hheard.
      unfold on_reply. simpl.
      destruct (error r) as [e|];
        [destruct (_ && _)|]; simpl; rewrite lookup_insert_eq;
        intros [= <-]; simpl; apply Forall_app; split; auto.
    + destruct (calls st !! j) as [[q [| |d|o] h s]|] eqn:Hc; simpl;
        try (by apply Hheard).
      rewrite lookup_insert_eq. intros [= <-]. apply (Hheard _ Hc).
  - rewrite fire_other by done. apply Hheard.
Qed.

Lemma run_heard P i evs : ∀ st,
  Forall (replies_with P) evs → heard P i st → heard P i (run evs st).
Proof.
  induction evs as [|ev evs IH]; intros st Hevs Hh; [done|].
  apply Forall_cons in Hevs as [Hev Hevs]. simpl. apply IH; [done|].
  by apply fire_heard.
Qed.

(** A call that is about to look up the session, up to the code that
    follows the reply to its query. *)
Lemma attempt_step i q h s cs w r rest :
  run (SessionResolves i :: Replies i r :: rest)
      (mkLoop w (<[i := mkCall q AwaitingSession h s]> cs)) =
  run rest
    match error r with
    | Some e =>
        if bool_decide (connectionRetries w < maxRetries)%nat
           && looks_like_connection_issue e
        then mkLoop (back_off (answered w))
               (<[i := mkCall q
                        (Sleeping (retryDelay * Z.of_nat (S (connectionRetries w))))
                        (h ++ [r])
                        (s ++ [retryDelay * Z.of_nat (S (connectionRetries w))])]>
                  cs)
        else mkLoop (answered w)
               (<[i := mkCall q (Settled (Throw e)) (h ++ [r]) s]> cs)
    | None =>
        mkLoop (reset_retries (answered w))
          (<[i := mkCall q (Settled (Ok (default [] (data r)))) (h ++ [r]) s]>
             cs)
    end.
Proof.
  unfold run. cbn [foldl]. f_equal.
  unfold fire at 2. cbn [calls service]. rewrite lookup_insert_eq.
  rewrite insert_insert_eq.
  unfold fire. cbn [calls service]. rewrite lookup_insert_eq.
  unfold on_reply. cbn [call_quarter answers waited].
  destruct (error r) as [e|]; [destruct (_ && _)|];
    cbn [catch_log_rethrow]; by rewrite insert_insert_eq.
Qed.

Lemma timer_step i q d h s cs w rest :
  run (TimerFires i :: rest)
      (mkLoop w (<[i := mkCall q (Sleeping d) h s]> cs)) =
  run rest (mkLoop w (<[i := mkCall q AwaitingSession h s]> cs)).
Proof.
  unfold run. cbn [foldl]. f_equal.
  unfold fire. cbn [calls service]. rewrite lookup_insert_eq.
  by rewrite insert_insert_eq.
Qed.

(** A settled call ignores whatever is still delivered to it. *)
Lemma own_settled i q o h s cs w evs :
  Forall (λ ev, subject ev = i) evs →
  run evs (mkLoop w (<[i := mkCall q (Settled o) h s]> cs))
    = mkLoop w (<[i := mkCall q (Settled o) h s]> cs).
Proof.
  induction 1 as [|ev evs Hev _ IH]; [done|].
  change (run (ev :: evs) ?st) with (run evs (fire ev st)).
  replace (fire ev (mkLoop w (<[i := mkCall q (Settled o) h s]> cs)))
    with (mkLoop w (<[i := mkCall q (Settled o) h s]> cs)); [exact IH|].
  subst i. destruct ev; unfold fire; cbn [calls service subject];
    by rewrite lookup_insert_eq.
Qed.

Lemma attempts_cons i r r' rs :
  attempts i (r :: r' :: rs) =
  SessionResolves i :: Replies i r :: TimerFires i :: attempts i (r' :: rs).
Proof. done. Qed.

Lemma attempts_own i rs : Forall (λ ev, subject ev = i) (attempts i rs).
Proof.
  induction rs as [|r rs IH]; [constructor|].
  destruct rs as [|r' rs].
  - cbn [attempts]. do 2 (constructor; [done|]). constructor.
  - rewrite attempts_cons. do 3 (constructor; [done|]). exact IH.
Qed.

(** Delivered what it awaits for [n] queries with nothing in between, a
    call has run as the uninterrupted run does, or is still on its way when
    that run asks more than [n] queries. *)
Lemma awaited_refines i q select : ∀ n w h s cs,
  let atomic := getPortfolioByQuarter select q w in
  let st' := run (awaited i q select (fetches w) n)
                 (mkLoop w (<[i := mkCall q AwaitingSession h s]> cs)) in
  ∃ retries,
    fetches atomic.2 = S (fetches w + retries) ∧
    (retries ≤ maxRetries - connectionRetries w)%nat ∧
    ((retries < n)%nat ∧
     st' = mkLoop atomic.2
             (<[i := mkCall q (Settled atomic.1)
                      (h ++ (select q <$> seq (fetches w) (S retries)))
                      (s ++ backoff_delays (connectionRetries w) retries)]> cs)
     ∨ (n ≤ retries)%nat ∧
       ∃ c, calls st' !! i = Some c ∧ ∀ o, phase c ≠ Settled o).
Proof.
  induction n as [|n IH]; intros w h s cs atomic st'.
  - destruct (run_shape select q w) as (retries & Hf & Hb & _).
    exists retries. split; [done|]. split; [done|]. right. split; [lia|].
    unfold st', awaited. cbn [seq fmap list_fmap attempts run foldl calls].
    eexists. rewrite lookup_insert_eq. by split.
  - unfold st', atomic, awaited. cbn [seq fmap list_fmap].
    change (list_fmap _ _ (select q) ?l) with (select q <$> l).
    cbn [attempts]. rewrite attempt_step, getPortfolioByQuarter_unfold.
    assert (Hrest : Forall (λ ev, subject ev = i)
              match select q <$> seq (S (fetches w)) n with
              | [] => []
              | _ :: _ =>
                  TimerFires i :: attempts i (select q <$> seq (S (fetches w)) n)
              end).
    { destruct (select q <$> seq (S (fetches w)) n); [constructor|].
      constructor; [done | apply attempts_own]. }
    assert (Hstop : ∀ o w',
      fetches w' = S (fetches w) →
      ∃ retries,
        fetches (o, w').2 = S (fetches w + retries) ∧
        (retries ≤ maxRetries - connectionRetries w)%nat ∧
        ((retries < S n)%nat ∧
         mkLoop w' (<[i := mkCall q (Settled o)
                             (h ++ [select q (fetches w)]) s]> cs)
         = mkLoop (o, w').2
             (<[i := mkCall q (Settled (o, w').1)
                      (h ++ (select q <$> seq (fetches w) (S retries)))
                      (s ++ backoff_delays (connectionRetries w) retries)]> cs)
         ∨ (S n ≤ retries)%nat ∧
           ∃ c, calls (mkLoop w'
                         (<[i := mkCall q (Settled o)
                                  (h ++ [select q (fetches w)]) s]> cs))
                  !! i = Some c ∧ ∀ o', phase c ≠ Settled o')).
    { intros o w' Hw'. exists 0%nat. cbn [fst snd].
      split; [lia|]. split; [lia|]. left. split; [lia|].
      cbn [seq fmap list_fmap backoff_delays map]. by rewrite app_nil_r. }
    destruct (error (select q (fetches w))) as [e|].
    + destruct (bool_decide (connectionRetries w < maxRetries)%nat) eqn:Hlt;
        cbn [andb].
      * apply bool_decide_eq_true_1 in Hlt.
        destruct (looks_like_connection_issue e).
        -- destruct (IH (back_off (answered w))
                        (h ++ [select q (fetches w)])
                        (s ++ [retryDelay * Z.of_nat (S (connectionRetries w))])
                        cs)
             as (retries & Hf & Hb & Hcase).
           change (fetches (back_off (answered w))) with (S (fetches w))
             in Hf, Hcase.
           change (connectionRetries (back_off (answered w)))
             with (S (connectionRetries w)) in Hb, Hcase.
           exists (S retries). split; [rewrite Hf; lia|]. split; [lia|].
           destruct n as [|n].
           ++ right. split; [lia|].
              cbn [seq fmap list_fmap run foldl calls].
              eexists. rewrite lookup_insert_eq. by split.
           ++ unfold awaited in Hcase.
              destruct (select q <$> seq (S (fetches w)) (S n)) as [|r' rs] eqn:Hl;
                [done|].
              rewrite timer_step.
              destruct Hcase as [[Hlt' Hrun] | [Hge Hrun]].
              ** left. split; [lia|]. rewrite Hrun.
                 rewrite backoff_delays_S, <- !app_assoc. done.
              ** right. split; [lia|]. exact Hrun.
        -- rewrite own_settled by done. by apply Hstop.
      * rewrite own_settled by done. by apply Hstop.
    + rewrite own_settled by done. by apply Hstop.
Qed.

Lemma attempts_rounds i rs :
  rs ≠ [] → attempts i rs ++ [TimerFires i] = rounds i rs.
Proof.
  induction rs as [|r rs IH]; [done|]. intros _.
  destruct rs as [|r' rs]; [done|].
  change (attempts i (r :: r' :: rs))
    with (SessionResolves i :: Replies i r :: TimerFires i
            :: attempts i (r' :: rs)).
  change (rounds i (r :: r' :: rs))
    with (SessionResolves i :: Replies i r :: TimerFires i
            :: rounds i (r' :: rs)).
  by rewrite <- IH.
Qed.

(** Delivered in turn what it awaits, the call advances, whatever the
    other calls do. *)
Lemma fire_due i ev evs st :
  backend_keeps_failing ev →
  (connectionRetries (service st) ≤ maxRetries)%nat →
  due i st (ev :: evs) → due i (fire ev st) evs.
Proof.
  intros Hev Hmax (c & Hc & Hph).
  destruct (decide (subject ev = i)) as [Hown | Hne].
  - unfold own in Hph. rewrite filter_cons_True in Hph by done.
    fold (own i evs) in Hph. rewrite <- app_comm_cons in Hph.
    destruct c as [q [| |d|o] h s]; cbn [phase] in Hph.
    + destruct Hph as ([|r rs] & Hpat & Hlen); [done|].
      cbn [rounds] in Hpat. injection Hpat as -> Hpat.
      unfold fire. rewrite Hc. eexists. cbn [calls service].
      rewrite lookup_insert_eq. split; [done|]. cbn [phase].
      exists r, rs. split; [done|]. cbn [length] in Hlen. lia.
    + destruct Hph as (r & rs & Hpat & Hlen).
      injection Hpat as -> Hpat.
      destruct Hev as [_ (e & He & Hmsg)].
      unfold fire. rewrite Hc. unfold on_reply. rewrite He, Hmsg.
      destruct (bool_decide (connectionRetries (service st) < maxRetries)%nat)
        eqn:Hlt; cbn [andb]; eexists; cbn [calls service];
        rewrite lookup_insert_eq; (split; [done|]); cbn [phase]; [|done].
      apply bool_decide_eq_true_1 in Hlt.
      exists rs. split; [done|].
      change (connectionRetries (back_off (answered (service st))))
        with (S (connectionRetries (service st))). lia.
    + destruct Hph as (rs & Hpat & Hlen).
      injection Hpat as -> Hpat.
      unfold fire. rewrite Hc. eexists. cbn [calls service].
      rewrite lookup_insert_eq. split; [done|]. cbn [phase].
      by exists rs.
    + exists (mkCall q (Settled o) h s). split; [|done].
      subst i. destruct ev; unfold fire; cbn [subject] in *; by rewrite Hc.
  - unfold own in Hph. rewrite filter_cons_False in Hph by done.
    fold (own i evs) in Hph.
    destruct (fire_counter ev st (keeps_failing_no_success ev Hev) Hmax)
      as [Hmono _].
    exists c. rewrite fire_other by done. split; [done|].
    destruct (phase c); [| | |done].
    + destruct Hph as (rs & Hpat & Hlen). exists rs. split; [done | lia].
    + destruct Hph as (r & rs & Hpat & Hlen). exists r, rs.
      split; [done | lia].
    + destruct Hph as (rs & Hpat & Hlen). exists rs. split; [done | lia].
Qed.

Lemma run_due i evs : ∀ st,
  Forall backend_keeps_failing evs →
  (connectionRetries (service st) ≤ maxRetries)%nat →
  due i st evs →
  ∃ c o, calls (run evs st) !! i = Some c ∧ phase c = Settled o.
Proof.
  induction evs as [|ev evs IH]; intros st Hevs Hmax Hdue.
  - destruct Hdue as (c & Hc & Hph). exists c.
    destruct (phase c) as [| |d|o]; [| | |by exists o].
    + destruct Hph as ([|r rs] & Hpat & Hlen); [simpl in Hlen; lia | done].
    + by destruct Hph as (r & rs & Hpat & _).
    + destruct Hph as ([|r rs] & Hpat & Hlen); [simpl in Hlen; lia | done].
  - apply Forall_cons in Hevs as [Hev Hevs]. simpl. apply IH; [done| |].
    + by destruct (fire_counter ev st (keeps_failing_no_success ev Hev) Hmax).
    + by apply fire_due.
Qed.

Lemma started i quarter evs st :
  calls st !! i = None →
  (connectionRetries (service st) ≤ maxRetries)%nat →
  Forall no_reply_succeeds evs →
  tracks (connectionRetries (service st)) i (run (Start i quarter :: evs) st).
Proof.
  intros Hfresh Hmax Hevs.
  change (run (Start i quarter :: evs) st)
    with (run evs (fire (Start i quarter) st)).
  apply run_tracks; [done|]. by apply start_tracks.
Qed.

Lemma tracks_total c0 i st c :
  tracks c0 i st → calls st !! i = Some c → total_wait (waited c) ≤ 6000.
Proof.
  intros (c' & Hc' & Hmax & _ & _ & Htot & _) Hc.
  rewrite Hc in Hc'. injection Hc' as <-.
  pose proof (triangle_mono _ _ Hmax) as Htri.
  change (triangle maxRetries) with 6%nat in Htri.
  unfold retryDelay in *. lia.
Qed.

Lemma started_fresh i quarter evs st :
  calls st !! i = None →
  run (Start i quarter :: evs) st =
  run evs (mkLoop (service st)
                  (<[i := mkCall quarter AwaitingSession [] []]> (calls st))).
Proof.
  intros Hfresh.
  change (run (Start i quarter :: evs) st)
    with (run evs (fire (Start i quarter) st)).
  unfold fire. by rewrite Hfresh.
Qed.

(** A call that has thrown a retryable error found the budget used up. *)
Lemma settled_exhausted c0 i st c o :
  tracks c0 i st → heard retryable_reply i st →
  calls st !! i = Some c → phase c = Settled o →
  connectionRetries (service st) = maxRetries.
Proof.
  intros (c' & Hc' & Hmax & _ & _ & _ & Hph) Hheard Hc Ho.
  rewrite Hc in Hc'. injection Hc' as <-. rewrite Ho in Hph.
  destruct Hph as (_ & e & Hlast & _ & Hgate).
  specialize (Hheard c Hc).
  destruct (last (answers c)) as [r|] eqn:Hr; [|done]. simpl in Hlast.
  apply last_Some_elem_of in Hr.
  rewrite Forall_forall in Hheard.
  destruct (Hheard r Hr) as (e' & He' & Hmsg).
  assert (e' = e) as -> by congruence.
  specialize (Hgate Hmsg). lia.
Qed.

Lemma backoff_delays_snoc c n :
  backoff_delays c (S n) =
    backoff_delays c n ++ [retryDelay * Z.of_nat (c + S n)].
Proof. unfold backoff_delays. by rewrite seq_S, map_app. Qed.

(** Events other than replies leave the service alone. *)
Lemma fire_bystander i ev st :
  subject ev ≠ i → undisturbed i ev →
  service (fire ev st) = service st ∧
  calls (fire ev st) !! i = calls st !! i.
Proof.
  intros Hne Hund. split; [|by apply fire_other].
  destruct ev as [j q | j | j e0 | j r | j]; simpl in *; [| | |done|].
  - by destruct (calls st !! j).
  - by destruct (calls st !! j) as [[q [| |d|o] h s]|].
  - by destruct (calls st !! j) as [[q [| |d|o] h s]|].
  - by destruct (calls st !! j) as [[q [| |d|o] h s]|].
Qed.

(** What an event does to its call depends on the service and on that
    call's record only. *)
Lemma fire_own i ev st1 st2 :
  subject ev = i →
  service st1 = service st2 → calls st1 !! i = calls st2 !! i →
  service (fire ev st1) = service (fire ev st2) ∧
  calls (fire ev st1) !! i = calls (fire ev st2) !! i.
Proof.
  intros <- Hs Hc.
  destruct ev as [j q | j | j e0 | j r | j]; unfold fire;
    cbn [subject] in *; rewrite Hs, Hc.
  - destruct (calls st2 !! j) eqn:Hj; cbn [service calls];
      [by rewrite Hs, Hc, Hj | by rewrite !lookup_insert_eq].
  - destruct (calls st2 !! j) as [[q [| |d|o] h s]|] eqn:Hj;
      cbn [service calls]; rewrite ?lookup_insert_eq, ?Hj; done.
  - destruct (calls st2 !! j) as [[q [| |d|o] h s]|] eqn:Hj;
      cbn [service calls]; rewrite ?lookup_insert_eq, ?Hj; done.
  - destruct (calls st2 !! j) as [[q [| |d|o] h s]|] eqn:Hj;
      cbn [service calls]; rewrite ?Hj; try done.
    destruct (on_reply r _ _) as [c' w']. cbn [service calls].
    by rewrite !lookup_insert_eq.
  - destruct (calls st2 !! j) as [[q [| |d|o] h s]|] eqn:Hj;
      cbn [service calls]; rewrite ?lookup_insert_eq, ?Hj; done.
Qed.

(** While no query of another call resolves, a call and the service fare
    as if the events of the other calls were not there. *)
Lemma undisturbed_run i evs : ∀ st1 st2,
  Forall (undisturbed i) evs →
  service st1 = service st2 → calls st1 !! i = calls st2 !! i →
  service (run evs st1) = service (run (own i evs) st2) ∧
  calls (run evs st1) !! i = calls (run (own i evs) st2) !! i.
Proof.
  induction evs as [|ev evs IH]; intros st1 st2 Hevs Hs Hc; [done|].
  apply Forall_cons in Hevs as [Hev Hevs]. unfold own.
  destruct (decide (subject ev = i)) as [Hown | Hne].
  - rewrite filter_cons_True by done.
    destruct (fire_own i ev st1 st2 Hown Hs Hc) as [Hs' Hc'].
    exact (IH (fire ev st1) (fire ev st2) Hevs Hs' Hc').
  - rewrite filter_cons_False by done.
    destruct (fire_bystander i ev st1 Hne Hev) as [Hs' Hc'].
    apply (IH (fire ev st1) st2 Hevs); congruence.
Qed.

(** The undisturbed call against the uninterrupted run. *)
Lemma undisturbed_awaited i quarter select n evs st :
  calls st !! i = None →
  Forall (undisturbed i) evs →
  own i evs = awaited i quarter select (fetches (service st)) n →
  let atomic := getPortfolioByQuarter select quarter (service st) in
  let st' := run (Start i quarter :: evs) st in
  ∃ retries,
    fetches atomic.2 = S (fetches (service st) + retries) ∧
    (retries ≤ maxRetries - connectionRetries (service st))%nat ∧
    ((retries < n)%nat ∧
     service st' = atomic.2 ∧
     calls st' !! i =
       Some (mkCall quarter (Settled atomic.1)
               (select quarter <$> seq (fetches (service st)) (S retries))
               (backoff_delays (connectionRetries (service st)) retries))
     ∨ (n ≤ retries)%nat ∧
       ∃ c, calls st' !! i = Some c ∧ ∀ o, phase c ≠ Settled o).
Proof.
  intros Hfresh Hevs Hown atomic st'. unfold st'.
  rewrite started_fresh by done.
  match goal with |- context [run evs ?st0] => set (st0' := st0) end.
  destruct (undisturbed_run i evs st0' st0' Hevs eq_refl eq_refl)
    as [Hs Hc].
  rewrite Hs, Hc, Hown. unfold st0'.
  destruct (awaited_refines i quarter select n (service st) [] [] (calls st))
    as (retries & Hf & Hb & Hcase).
  exists retries. split; [done|]. split; [done|].
  destruct Hcase as [[Hlt ->] | [Hge Hrun]]; [left | by right].
  cbn [service calls]. rewrite lookup_insert_eq. done.
Qed.

Lemma start_in_step i quarter st :
  calls st !! i = None →
  in_step (connectionRetries (service st)) i (fire (Start i quarter) st).
Proof.
  intros Hfresh. unfold fire. rewrite Hfresh.
  eexists. cbn [calls service]. rewrite lookup_insert_eq.
  split; [done|]. cbn [waited phase length]. split; [done|].
  split; lia.
Qed.

Lemma fire_in_step c0 i ev st :
  undisturbed i ev → in_step c0 i st → in_step c0 i (fire ev st).
Proof.
  intros Hund (c & Hc & Hw & Hlen & Hph).
  destruct (decide (subject ev = i)) as [Hown | Hne].
  - destruct ev as [j q | j | j e0 | j r | j]; simpl in Hown; subst j;
      unfold fire; rewrite Hc.
    + by exists c.
    + destruct c as [q [| |d|o] h s]; try by eexists.
      eexists. cbn [calls service]. rewrite lookup_insert_eq. done.
    + destruct c as [q [| |d|o] h s]; try by eexists.
      eexists. cbn [calls service]. rewrite lookup_insert_eq. done.
    + destruct c as [q [| |d|o] h s]; try by eexists.
      unfold on_reply, in_step. cbn [call_quarter answers waited phase] in *.
      destruct (error r) as [e|].
      * destruct (bool_decide (connectionRetries (service st) < maxRetries)%nat)
          eqn:Hlt; cbn [andb].
        -- apply bool_decide_eq_true_1 in Hlt.
           destruct (looks_like_connection_issue e);
             cbn [calls service]; eexists; rewrite lookup_insert_eq;
             (split; [done|]); cbn [waited phase catch_log_rethrow];
             [|done].
           rewrite length_app. cbn [length]. rewrite Nat.add_1_r.
           split; [|split].
           ++ rewrite backoff_delays_snoc, <- Hw.
              change (connectionRetries (back_off (answered (service st))))
                with (S (connectionRetries (service st))).
              rewrite Hph. do 3 f_equal. lia.
           ++ lia.
           ++ change (connectionRetries (back_off (answered (service st))))
                with (S (connectionRetries (service st))). lia.
        -- cbn [calls service]. eexists. rewrite lookup_insert_eq.
           split; [done|]. cbn [waited phase catch_log_rethrow]. done.
      * cbn [calls service]. eexists. rewrite lookup_insert_eq.
        split; [done|]. cbn [waited phase catch_log_rethrow]. done.
    + destruct c as [q [| |d|o] h s]; try by eexists.
      eexists. cbn [calls service]. rewrite lookup_insert_eq. done.
  - destruct (fire_bystander i ev st Hne Hund) as [Hs' Hc'].
    exists c. rewrite Hc', Hs'. done.
Qed.

Lemma run_in_step c0 i evs : ∀ st,
  Forall (undisturbed i) evs → in_step c0 i st → in_step c0 i (run evs st).
Proof.
  induction evs as [|ev evs IH]; intros st Hevs Hst; [done|].
  apply Forall_cons in Hevs as [Hev Hevs]. simpl. apply IH; [done|].
  by apply fire_in_step.
Qed.

Lemma started_in_step i quarter evs st :
  calls st !! i = None →
  Forall (undisturbed i) evs →
  in_step (connectionRetries (service st)) i (run (Start i quarter :: evs) st).
Proof.
  intros Hfresh Hevs.
  change (run (Start i quarter :: evs) st)
    with (run evs (fire (Start i quarter) st)).
  apply run_in_step; [done|]. by apply start_in_step.
Qed.

Lemma started_heard i quarter evs st :
  calls st !! i = None →
  Forall backend_keeps_failing evs →
  heard retryable_reply i (run (Start i quarter :: evs) st).
Proof.
  intros Hfresh Hevs. apply run_heard.
  - constructor; [exact I|].
    eapply Forall_impl; [exact Hevs|]. by intros ev [_ Hr].
  - intros c Hc. congruence.
Qed.

(** C2, amended: while the backend keeps failing with a retryable error
    (the session lookups resolve and every reply, to this call or to one
    that overlaps it, is an error whose message passes the gate's test), a
    call to [getPortfolioByQuarter] entered with the shared retry counter at
    [c] performs at most [3 - c] retries, so at most 3; each retry waits
    1000 ms times the value the shared counter has after that retry's
    increment, which for the [k]-th retry lies between [c + k] and 3; the
    call never returns a result: every reply is followed
    by a retry or thrown, so that the call has asked one query per retry
    while it runs and one more when it is settled, and once settled it has
    thrown the error of its last reply; and it is settled as soon as
    [3 - c + 1] of its queries have been answered, the loop delivering to it
    in turn the events it awaits (session lookup, reply, timer), whatever
    the other calls do in between.  When no query of another call
    resolves while it runs, the settled call has performed exactly [3 - c]
    retries, the [k]-th delayed by exactly [(c + k) * 1000] ms, which is
    [k * 1000] ms for [c = 0]. *)
Theorem retry_bounded_under_interleaving i quarter evs st :
  calls st !! i = None →
  (connectionRetries (service st) ≤ maxRetries)%nat →
  Forall backend_keeps_failing evs →
  let c0 := connectionRetries (service st) in
  let st' := run (Start i quarter :: evs) st in
  (∃ call, calls st' !! i = Some call ∧
     (length (waited call) ≤ maxRetries - c0)%nat ∧
     (maxRetries - c0 ≤ 3)%nat ∧
     (∀ k d, waited call !! k = Some d →
        ∃ n, d = retryDelay * Z.of_nat n ∧ (c0 + k + 1 ≤ n ≤ 3)%nat) ∧
     match phase call with
     | Settled outcome =>
         length (answers call) = S (length (waited call)) ∧
         ∃ e, last (answers call) ≫= error = Some e ∧ outcome = Throw e
     | _ => length (answers call) = length (waited call)
     end) ∧
  (∀ rs, own i evs = attempts i rs → (maxRetries - c0 < length rs)%nat →
     ∃ call e, calls st' !! i = Some call ∧
               phase call = Settled (Throw e)) ∧
  (Forall (undisturbed i) evs →
     ∀ call outcome,
       calls st' !! i = Some call → phase call = Settled outcome →
       length (waited call) = (maxRetries - c0)%nat ∧
       waited call = backoff_delays c0 (maxRetries - c0) ∧
       (c0 = 0%nat → waited call = [1000; 2000; 3000])).
Proof.
  intros Hfresh Hmax Hevs c0 st'.
  assert (Hquiet : Forall no_reply_succeeds evs).
  { eapply Forall_impl; [exact Hevs | apply keeps_failing_no_success]. }
  pose proof (started i quarter evs st Hfresh Hmax Hquiet) as Htr.
  fold c0 st' in Htr.
  split; [|split].
  - destruct Htr as (c & Hc & Hmax' & Hlen & Hd & _ & Hph).
    exists c. split; [done|]. split; [lia|].
    split; [unfold maxRetries; lia|]. split.
    + intros k d Hk. destruct (Hd k d Hk) as (n & Hn & Hlo & Hhi).
      exists n. split; [done|]. unfold maxRetries in *. lia.
    + destruct (phase c); try done.
      destruct Hph as (Hlen' & e & Hlast & -> & _).
      split; [done|]. by exists e.
  - intros rs Hown Hlen.
    destruct (run_due i evs (fire (Start i quarter) st) Hevs)
      as (c & o & Hc & Ho).
    { by destruct (fire_counter (Start i quarter) st (conj I I) Hmax). }
    { unfold fire. rewrite Hfresh. eexists. cbn [calls service].
      rewrite lookup_insert_eq. split; [done|]. cbn [phase].
      exists rs. split; [|done]. rewrite Hown. apply attempts_rounds.
      intros ->. simpl in Hlen. lia. }
    destruct Htr as (c' & Hc' & _ & _ & _ & _ & Hph).
    change (run evs (fire (Start i quarter) st)) with st' in Hc.
    rewrite Hc in Hc'. injection Hc' as <-. rewrite Ho in Hph.
    destruct Hph as (_ & e & _ & -> & _). by exists c, e.
  - intros Halone call o Hcall Ho.
    pose proof (settled_exhausted c0 i st' call o Htr
                  (started_heard i quarter evs st Hfresh Hevs) Hcall Ho)
      as Hfull.
    destruct (started_in_step i quarter evs st Hfresh Halone)
      as (c & Hc & Hw & Hlen & Hph).
    fold c0 st' in Hc, Hw, Hlen, Hph.
    rewrite Hcall in Hc. injection Hc as <-.
    destruct Htr as (c & Hc & _ & _ & _ & _ & Hph').
    rewrite Hcall in Hc. injection Hc as <-.
    rewrite Ho in Hph, Hph'.
    destruct Hph' as (_ & e & _ & -> & _).
    assert (Hretries : length (waited call) = (maxRetries - c0)%nat) by lia.
    split; [done|]. rewrite Hretries in Hw. split; [done|].
    intros Hzero. by rewrite Hw, Hzero.
Qed.

Lemma retry_bounded_under_interleaving_witness :
  ∃ call, calls (run overlapping_mount idle) !! 1%nat = Some call ∧
          (length (waited call) ≤ 3)%nat ∧
          waited call = [1000; 3000] ∧
          phase call = Settled (Throw network_error).
Proof.
  assert (Hevs : Forall backend_keeps_failing (tail overlapping_mount)).
  { unfold overlapping_mount. cbn [tail].
    repeat (constructor;
            [split; [exact I|];
             first [exact I | exists network_error; split; reflexivity]|]).
    constructor. }
  destruct (retry_bounded_under_interleaving 1 "Q1 2024"
              (tail overlapping_mount) idle eq_refl
              ltac:(unfold maxRetries; simpl; lia) Hevs)
    as ((call & Hcall & Hretries & _) & _).
  exists call. split; [exact Hcall|]. split; [exact Hretries|].
  change (run (Start 1 "Q1 2024" :: tail overlapping_mount) idle)
    with (run overlapping_mount idle) in Hcall.
  vm_compute in Hcall. injection Hcall as <-. split; reflexivity.
Defined.

(** A success of another call gives the retries back in mid-run: here call
    1 retries four times and waits seven seconds in all. *)
Example success_of_another_call_lifts_the_bounds :
  ∃ call, calls (run reset_midway idle) !! 1%nat = Some call ∧
          waited call = [1000; 1000; 2000; 3000] ∧
          phase call = Settled (Throw network_error).
Proof. eexists. split; [vm_compute; reflexivity|]. split; reflexivity. Qed.

(** X7: a call to [getPortfolioByQuarter] during which no query of another
    call resolves runs as the uninterrupted run does, whatever the backend
    answers and whatever else the other calls do meanwhile.  The loop
    delivering to it in turn the events it awaits for [n] queries, it is
    settled as soon as [n] exceeds the retries the counter left, and once
    it is settled: it has the outcome of the uninterrupted run and has left
    the service as that run leaves it; it has asked one query more than it
    made retries, the retries being within what the counter left; the
    delays it awaited are those of linear backoff from the counter's value
    at its start, one per retry; and the counter stands at 0 when the call
    returned a result, and raised by the number of retries when it threw. *)
Theorem undisturbed_call_is_uninterrupted_run i quarter select n evs st :
  calls st !! i = None →
  Forall (undisturbed i) evs →
  own i evs = awaited i quarter select (fetches (service st)) n →
  let w := service st in
  let atomic := getPortfolioByQuarter select quarter w in
  let st' := run (Start i quarter :: evs) st in
  ((maxRetries - connectionRetries w < n)%nat →
   ∃ call outcome, calls st' !! i = Some call ∧ phase call = Settled outcome) ∧
  (∀ call outcome,
     calls st' !! i = Some call → phase call = Settled outcome →
     ∃ retries,
       (retries < n)%nat ∧
       (retries ≤ maxRetries - connectionRetries w)%nat ∧
       outcome = atomic.1 ∧
       service st' = atomic.2 ∧
       call = mkCall quarter (Settled atomic.1)
                (select quarter <$> seq (fetches w) (S retries))
                (backoff_delays (connectionRetries w) retries) ∧
       connectionRetries (service st') =
         match outcome with
         | Ok _ => 0%nat
         | Throw _ => (connectionRetries w + retries)%nat
         end).
Proof.
  intros Hfresh Hevs Hown w atomic st'.
  destruct (undisturbed_awaited i quarter select n evs st Hfresh Hevs Hown)
    as (retries & Hf & Hb & Hcase).
  fold w atomic st' in Hf, Hb, Hcase.
  split.
  - intros Hn. destruct Hcase as [(_ & _ & Hcall) | [Hge _]]; [|lia].
    by eexists _, _.
  - intros call outcome Hcall Ho.
    destruct Hcase as [(Hlt & Hservice & Hcall') | (_ & c & Hc & Hrunning)].
    + rewrite Hcall in Hcall'. injection Hcall' as ->.
      cbn [phase] in Ho. injection Ho as <-.
      exists retries. split; [done|]. split; [done|]. split; [done|].
      split; [done|]. split; [done|]. rewrite Hservice.
      destruct (run_shape select quarter w) as (r & Hf' & _ & _ & Hcounter).
      fold atomic in Hf', Hcounter.
      assert (r = retries) as -> by lia. exact Hcounter.
    + rewrite Hcall in Hc. injection Hc as <-. by destruct (Hrunning outcome).
Qed.

Lemma undisturbed_call_is_uninterrupted_run_witness :
  ∃ retries,
    calls (run (Start 1 "Q1 2024" :: recovery_with_bystander) idle) !! 1%nat
      = Some (mkCall "Q1 2024"
                (Settled (getPortfolioByQuarter recovers "Q1 2024" initial).1)
                (recovers "Q1 2024" <$> seq 0 (S retries))
                (backoff_delays 0 retries)).
Proof.
  assert (Hevs : Forall (undisturbed 1) recovery_with_bystander).
  { unfold recovery_with_bystander.
    repeat (constructor; [first [exact I | reflexivity]|]). constructor. }
  destruct (undisturbed_call_is_uninterrupted_run 1 "Q1 2024" recovers 3
              recovery_with_bystander idle eq_refl Hevs eq_refl)
    as [_ Hsettled].
  destruct (calls (run (Start 1 "Q1 2024" :: recovery_with_bystander) idle)
              !! 1%nat) as [call|] eqn:Hcall;
    [|vm_compute in Hcall; discriminate].
  assert (Hphase : phase call = Settled (Ok [one_row])).
  { vm_compute in Hcall. injection Hcall as <-. reflexivity. }
  destruct (Hsettled call (Ok [one_row]) eq_refl Hphase)
    as (retries & _ & _ & _ & _ & -> & _).
  exists retries. reflexivity.
Defined.

(** X8: one call never waits more than six seconds in total between its
    attempts, in two situations: when no query of another call resolves
    while it runs, whatever the backend answers; and, whatever calls
    overlap it, when it is entered with the counter within the maximum and,
    while it runs, the session lookups resolve and no query succeeds.
    (Outside these two situations the bound can fail:
    [success_of_another_call_lifts_the_bounds] is a run of seven seconds.) *)
Theorem total_wait_bounded i quarter evs st :
  calls st !! i = None →
  Forall (undisturbed i) evs
  ∨ (connectionRetries (service st) ≤ maxRetries)%nat
    ∧ Forall no_reply_succeeds evs →
  ∀ call, calls (run (Start i quarter :: evs) st) !! i = Some call →
    total_wait (waited call) ≤ 6000.
Proof.
  intros Hfresh [Halone | [Hmax Hquiet]] call Hcall.
  - destruct (started_in_step i quarter evs st Hfresh Halone)
      as (c & Hc & Hw & Hlen & _).
    rewrite Hcall in Hc. injection Hc as <-.
    rewrite Hw. by apply backoff_total.
  - eapply tracks_total; [|exact Hcall]. by apply started.
Qed.

Lemma total_wait_bounded_witness :
  ∃ call, calls (run overlapping_mount idle) !! 1%nat = Some call ∧
          total_wait (waited call) ≤ 6000.
Proof.
  assert (Hevs : Forall no_reply_succeeds (tail overlapping_mount)).
  { unfold overlapping_mount. cbn [tail].
    repeat (constructor; [split; [exact I|]; first [exact I | discriminate]|]).
    constructor. }
  assert (Hmax : (connectionRetries (service idle) ≤ maxRetries)%nat)
    by (unfold maxRetries; simpl; lia).
  destruct (calls (run overlapping_mount idle) !! 1%nat) as [call|] eqn:Hrun;
    [|vm_compute in Hrun; discriminate].
  exists call. split; [reflexivity|].
  exact (total_wait_bounded 1 "Q1 2024" (tail overlapping_mount) idle eq_refl
           (or_intror (conj Hmax Hevs)) call Hrun).
Defined.

(** X10: failure does not give the retries back, to any call.  Once a call
    has settled while the backend kept failing with a retryable error
    (whatever calls overlapped it), the shared counter stands at 3; a call
    started after that, while the session lookups resolve and no query
    succeeds, never waits, asks at most one query, and when settled has
    thrown the error of that single reply, retryable or not; and it does
    settle so as soon as its query is answered with an error. *)
Theorem exhausted_budget_is_shared i j quarter quarter' evs1 evs2 st :
  calls st !! i = None →
  (connectionRetries (service st) ≤ maxRetries)%nat →
  Forall backend_keeps_failing evs1 →
  let st1 := run (Start i quarter :: evs1) st in
  (∃ call outcome, calls st1 !! i = Some call ∧ phase call = Settled outcome) →
  calls st1 !! j = None →
  Forall no_reply_succeeds evs2 →
  connectionRetries (service st1) = 3%nat ∧
  (∃ call', calls (run (Start j quarter' :: evs2) st1) !! j = Some call' ∧
     waited call' = [] ∧
     match phase call' with
     | Settled outcome =>
         ∃ r e, answers call' = [r] ∧ error r = Some e ∧ outcome = Throw e
     | _ => answers call' = []
     end) ∧
  (∀ r e, error r = Some e →
     calls (run (Start j quarter' :: attempts j [r]) st1) !! j
       = Some (mkCall quarter' (Settled (Throw e)) [r] [])).
Proof.
  intros Hfresh Hmax Hevs1 st1 (call & o & Hcall & Ho) Hfresh' Hevs2.
  assert (Hquiet : Forall no_reply_succeeds evs1).
  { eapply Forall_impl; [exact Hevs1 | apply keeps_failing_no_success]. }
  assert (Hfull : connectionRetries (service st1) = maxRetries).
  { eapply settled_exhausted; [| |exact Hcall|exact Ho].
    - by apply started.
    - by apply started_heard. }
  split; [exact Hfull|]. split.
  - assert (Hmax1 : (connectionRetries (service st1) ≤ maxRetries)%nat)
      by lia.
    destruct (started j quarter' evs2 st1 Hfresh' Hmax1 Hevs2)
      as (c & Hc & Hmax' & Hlen & _ & _ & Hph).
    exists c. split; [done|].
    assert (Hnone : waited c = []).
    { destruct (waited c); [done|]. cbn [length] in Hlen. lia. }
    split; [done|]. rewrite Hnone in Hph. simpl in Hph.
    destruct (phase c);
      try (by destruct (answers c)).
    destruct Hph as (Hone & e & Hlast & -> & _).
    destruct (answers c) as [|r [|r' rest]]; [done| |done].
    exists r, e. done.
  - intros r e He. rewrite started_fresh by done.
    cbn [attempts]. unfold run. cbn [foldl].
    unfold fire at 2. cbn [calls service]. rewrite lookup_insert_eq.
    unfold fire. cbn [calls service]. rewrite lookup_insert_eq.
    unfold on_reply. rewrite He, Hfull.
    rewrite bool_decide_eq_false_2 by (unfold maxRetries; lia).
    cbn [andb calls]. by rewrite lookup_insert_eq.
Qed.

Lemma exhausted_budget_is_shared_witness :
  connectionRetries (service (run overlapping_mount idle)) = 3%nat ∧
  calls (run (Start 3 "Q2 2024"
                :: attempts 3 [mkReply None (Some permission_error)])
             (run overlapping_mount idle)) !! 3%nat
    = Some (mkCall "Q2 2024" (Settled (Throw permission_error))
              [mkReply None (Some permission_error)] []).
Proof.
  assert (Hevs : Forall backend_keeps_failing (tail overlapping_mount)).
  { unfold overlapping_mount. cbn [tail].
    repeat (constructor;
            [split; [exact I|];
             first [exact I | exists network_error; split; reflexivity]|]).
    constructor. }
  destruct (exhausted_budget_is_shared 1 3 "Q1 2024" "Q2 2024"
              (tail overlapping_mount) [] idle eq_refl
              ltac:(unfold maxRetries; simpl; lia) Hevs)
    as (Hfull & _ & Hnext).
  - eexists _, _. split; [vm_compute; reflexivity | reflexivity].
  - vm_compute. reflexivity.
  - constructor.
  - split; [exact Hfull|].
    exact (Hnext (mkReply None (Some permission_error)) permission_error
                 eq_refl).
Defined.

(** X11: transient failures are hidden from the caller.  When no query of
    another call resolves while the call runs, its first [k] replies are
    retryable errors, [k] within the retries the counter leaves, and the
    reply after them carries no error, then, the loop having delivered what
    the call awaits for these [k + 1] queries, the call has returned that
    last reply's rows (the empty list for null data) after [k] retries with
    their backoff delays, and has left the counter at 0. *)
Theorem undisturbed_call_recovers i quarter select k evs st :
  calls st !! i = None →
  Forall (undisturbed i) evs →
  own i evs = awaited i quarter select (fetches (service st)) (S k) →
  (k ≤ maxRetries - connectionRetries (service st))%nat →
  fails_then_recovers select quarter (service st) k →
  let w := service st in
  let st' := run (Start i quarter :: evs) st in
  calls st' !! i =
    Some (mkCall quarter
            (Settled (Ok (default [] (data (select quarter (fetches w + k)%nat)))))
            (select quarter <$> seq (fetches w) (S k))
            (backoff_delays (connectionRetries w) k)) ∧
  connectionRetries (service st') = 0%nat ∧
  fetches (service st') = S (fetches w + k).
Proof.
  intros Hfresh Hevs Hown Hk Hrec w st'.
  destruct (undisturbed_awaited i quarter select (S k) evs st
              Hfresh Hevs Hown) as (retries & Hf & Hb & Hcase).
  fold w st' in Hf, Hb, Hcase.
  rewrite (recovers_after k select quarter w Hk Hrec) in Hf, Hcase.
  cbn [fst snd fetches] in Hf, Hcase.
  assert (retries = k) as -> by lia.
  destruct Hcase as [(_ & Hservice & Hcall) | [Hge _]]; [|lia].
  rewrite Hservice. done.
Qed.

Lemma undisturbed_call_recovers_witness :
  calls (run (Start 1 "Q1 2024" :: recovery_with_bystander) idle) !! 1%nat
    = Some (mkCall "Q1 2024" (Settled (Ok [one_row]))
              (recovers "Q1 2024" <$> seq 0 3) [1000; 2000]).
Proof.
  assert (Hevs : Forall (undisturbed 1) recovery_with_bystander).
  { unfold recovery_with_bystander.
    repeat (constructor; [first [exact I | reflexivity]|]). constructor. }
  assert (Hrec : fails_then_recovers recovers "Q1 2024" (service idle) 2).
  { split; [|reflexivity].
    intros n Hn. exists network_error.
    destruct n as [|[|n]]; [done | done | lia]. }
  assert (Hk : (2 ≤ maxRetries - connectionRetries (service idle))%nat)
    by (unfold maxRetries; simpl; lia).
  destruct (undisturbed_call_recovers 1 "Q1 2024" recovers 2
              recovery_with_bystander idle eq_refl Hevs eq_refl Hk Hrec)
    as (Hcall & _).
  exact Hcall.
Defined.

End InterleavingFacts.
